(** * Verification of [src/extract_info.py]

    A shallow embedding of the extraction pipeline of the flood-report
    extractor: the disaster classifier, the numeric fact extractor, the
    regex location extractor, the contextual location categorizer, the
    location merger, the event date resolver and the driver
    ([process_article], [main]), together with the fragment of Python's
    [re] module and of spaCy's [Doc]/[Span] interface that these functions
    use.

    Conventions.
    - A Python [str] is a [string]; a character is a code point below 256
      (ASCII, with the Latin-1 reading of the upper half).
    - [list(set(xs))] is [elements (list_to_set xs)]: a duplicate-free
      listing of the members of [xs] in an order that is fixed but carries
      no meaning, as in Python.  Statements about such lists only speak
      about membership. *)

From Stdlib Require Import ZArith Ascii.
From stdpp Require Import gmap strings pretty list.

Local Open Scope string_scope.
Local Open Scope list_scope.
Local Open Scope nat_scope.

(** ** Python string primitives *)

Module Str.

Definition code (c : ascii) : N := N_of_ascii c.

Definition in_range (lo hi : N) (c : ascii) : bool :=
  ((lo <=? code c) && (code c <=? hi))%N.

(** [str.isspace] on one character, which is also the class [\s] of a
    [str] pattern: TAB..CR, FS..US, space, NEL and NBSP. *)
Definition is_space (c : ascii) : bool :=
  in_range 9 13 c || in_range 28 32 c || (code c =? 133)%N || (code c =? 160)%N.

(** The class [\d] of a [str] pattern: the decimal digits. *)
Definition is_digit (c : ascii) : bool := in_range 48 57 c.

Definition is_upper_az (c : ascii) : bool := in_range 65 90 c.
Definition is_lower_az (c : ascii) : bool := in_range 97 122 c.

(** [str.lower] on one character: [A-Z], and the Latin-1 capitals
    U+00C0..U+00DE except the multiplication sign U+00D7. *)
Definition lower_char (c : ascii) : ascii :=
  if is_upper_az c || (in_range 192 222 c && negb (code c =? 215)%N)
  then ascii_of_N (code c + 32) else c.

Fixpoint lower (s : string) : string :=
  match s with
  | EmptyString => EmptyString
  | String c s' => String (lower_char c) (lower s')
  end.

Fixpoint lstrip (s : list ascii) : list ascii :=
  match s with
  | c :: s' => if is_space c then lstrip s' else s
  | [] => []
  end.

(** [str.strip()] with no argument. *)
Definition strip (s : string) : string :=
  String.string_of_list_ascii
    (rev (lstrip (rev (lstrip (String.list_ascii_of_string s))))).

Fixpoint starts_with (p s : list ascii) : bool :=
  match p, s with
  | [], _ => true
  | a :: p', b :: s' => Ascii.eqb a b && starts_with p' s'
  | _ :: _, [] => false
  end.

Fixpoint contains_l (p s : list ascii) : bool :=
  starts_with p s ||
  match s with
  | [] => false
  | _ :: s' => contains_l p s'
  end.

(** [sub in s] for two strings. *)
Definition contains (sub s : string) : bool :=
  contains_l (String.list_ascii_of_string sub) (String.list_ascii_of_string s).

(** [any(keyword in context for keyword in keywords)] *)
Definition any_in (keywords : list string) (context : string) : bool :=
  existsb (fun keyword => contains keyword context) keywords.

(** Truth value of a list: [if xs]. *)
Definition truthy {A} (xs : list A) : bool :=
  match xs with [] => false | _ :: _ => true end.

(** [list(set(xs))] *)
Definition list_set (xs : list string) : list string :=
  elements (list_to_set xs : gset string).

End Str.

(** ** The fragment of [re] used by the program

    A backtracking matcher in continuation-passing style.  Alternatives
    are tried left to right, a greedy quantifier tries one more iteration
    before trying to stop, a lazy one tries to stop first; the first
    success wins.  This is the search order of Python's engine. *)

Module Re.

Inductive regex : Type :=
| Chr (c : ascii)                       (* a literal character *)
| Cls (p : ascii -> bool)               (* a character class *)
| Eps                                   (* the empty pattern *)
| Cat (r1 r2 : regex)                   (* r1r2 *)
| Alt (r1 r2 : regex)                   (* r1|r2 *)
| Rep (greedy : bool) (lo : nat) (hi : option nat) (r : regex)
                                        (* r{lo,hi}, r{lo,hi}? *)
| Grp (r : regex).                      (* the capturing group (r) *)

(** No pattern of the program has more than one capturing group, so the
    state of the groups is the text of group 1, if it has matched. *)
Definition capture : Type := option (list ascii).

Definition below (hi : option nat) (count : nat) : bool :=
  match hi with
  | None => true
  | Some h => count <? h
  end.

(** The loop of a quantifier [body{lo,hi}] followed by [k]; [count]
    iterations are done.  A greedy quantifier tries one more iteration
    first and stops when that fails, a lazy one the other way round.  An
    iteration has to consume input, so [length s] iterations exhaust the
    input and [fuel] starts there. *)
Section RepLoop.

Context {A : Type}.
Variable body :
  list ascii → capture → (list ascii → capture → option A) → option A.
Variables (greedy : bool) (lo : nat) (hi : option nat).
Variable k : list ascii → capture → option A.

Fixpoint rep_loop (fuel count : nat) (s : list ascii) (g : capture)
  : option A :=
  if greedy then
    match
      match fuel with
      | S fuel' =>
          if below hi count then
            body s g (fun s' g' =>
              if length s' <? length s
              then rep_loop fuel' (S count) s' g' else None)
          else None
      | O => None
      end
    with
    | Some x => Some x
    | None => if lo <=? count then k s g else None
    end
  else
    match (if lo <=? count then k s g else None) with
    | Some x => Some x
    | None =>
        match fuel with
        | S fuel' =>
            if below hi count then
              body s g (fun s' g' =>
                if length s' <? length s
                then rep_loop fuel' (S count) s' g' else None)
            else None
        | O => None
        end
    end.

End RepLoop.

(** [run r s g k]: match [r] at the front of [s], then continue with [k]
    on the rest of the input; [None] when every way to do so fails. *)
Fixpoint run {A} (r : regex) (s : list ascii) (g : capture)
    (k : list ascii → capture → option A) : option A :=
  match r with
  | Chr c =>
      match s with
      | a :: s' => if Ascii.eqb a c then k s' g else None
      | [] => None
      end
  | Cls p =>
      match s with
      | a :: s' => if p a then k s' g else None
      | [] => None
      end
  | Eps => k s g
  | Cat r1 r2 => run r1 s g (fun s' g' => run r2 s' g' k)
  | Alt r1 r2 =>
      match run r1 s g k with
      | Some x => Some x
      | None => run r2 s g k
      end
  | Rep greedy lo hi r' =>
      rep_loop (run r') greedy lo hi k (length s) O s g
  | Grp r' =>
      run r' s g (fun s' _ => k s' (Some (firstn (length s - length s') s)))
  end.

(** A match anchored at the front of [s]: the rest of the input after the
    match, and group 1. *)
Definition match_at (r : regex) (s : list ascii)
  : option (list ascii * capture) :=
  run r s None (fun s' g => Some (s', g)).

(** The input cut into the non-overlapping matches found from left to
    right ([Hit]) and the characters between them ([Gap]). *)
Inductive piece : Type :=
| Gap (c : ascii)
| Hit (whole : list ascii) (grp : capture).

(** [skip] characters belong to the match found last.  An empty match
    moves the search one character on. *)
Fixpoint scan (r : regex) (skip : nat) (s : list ascii) : list piece :=
  match skip with
  | S n =>
      match s with
      | [] => []
      | _ :: t => scan r n t
      end
  | O =>
      match match_at r s with
      | Some (s', g) =>
          Hit (firstn (length s - length s') s) g ::
          match s with
          | [] => []
          | c :: t =>
              match length s - length s' with
              | O => Gap c :: scan r O t
              | S m => scan r m t
              end
          end
      | None =>
          match s with
          | [] => []
          | c :: t => Gap c :: scan r O t
          end
      end
  end.

Fixpoint has_group (r : regex) : bool :=
  match r with
  | Chr _ | Cls _ | Eps => false
  | Cat r1 r2 | Alt r1 r2 => has_group r1 || has_group r2
  | Rep _ _ _ r' => has_group r'
  | Grp _ => true
  end.

(** What [findall] reports for one match: group 1 when the pattern has a
    group (the empty string when the group took no part), else the whole
    match. *)
Definition report (grouped : bool) (p : piece) : list string :=
  match p with
  | Gap _ => []
  | Hit whole g =>
      [String.string_of_list_ascii
         (if grouped then default [] g else whole)]
  end.

(** [re.search(pattern, text)]: the leftmost position at which the
    pattern matches, with the match found there. *)
Fixpoint search (r : regex) (s : list ascii)
  : option (list ascii * capture) :=
  match match_at r s with
  | Some m => Some m
  | None =>
      match s with
      | [] => None
      | _ :: t => search r t
      end
  end.

(** [re.findall(pattern, text)] *)
Definition findall (r : regex) (text : string) : list string :=
  flat_map (report (has_group r)) (scan r O (String.list_ascii_of_string text)).

Fixpoint split_pieces (ps : list piece) (cur : list ascii) : list string :=
  match ps with
  | [] => [String.string_of_list_ascii (rev cur)]
  | Gap c :: ps' => split_pieces ps' (c :: cur)
  | Hit _ _ :: ps' => String.string_of_list_ascii (rev cur) :: split_pieces ps' []
  end.

(** [re.split(pattern, text)] for a pattern without capturing group. *)
Definition split (r : regex) (text : string) : list string :=
  split_pieces (scan r O (String.list_ascii_of_string text)) [].

(** [nullable r] holds of every pattern that can match the empty string
    (and of some that cannot). *)
Fixpoint nullable (r : regex) : bool :=
  match r with
  | Chr _ | Cls _ => false
  | Eps => true
  | Cat r1 r2 => nullable r1 && nullable r2
  | Alt r1 r2 => nullable r1 || nullable r2
  | Rep _ lo _ r' => (lo =? 0) || nullable r'
  | Grp r' => nullable r'
  end.

(** Every quantifier of the pattern is over a body that consumes input. *)
Fixpoint productive (r : regex) : bool :=
  match r with
  | Chr _ | Cls _ | Eps => true
  | Cat r1 r2 | Alt r1 r2 => productive r1 && productive r2
  | Rep _ _ _ r' => negb (nullable r') && productive r'
  | Grp r' => productive r'
  end.

(** *** Pattern syntax *)

Fixpoint lit_l (s : list ascii) : regex :=
  match s with
  | [] => Eps
  | [c] => Chr c
  | c :: s' => Cat (Chr c) (lit_l s')
  end.

Definition lit (s : string) : regex := lit_l (String.list_ascii_of_string s).

Fixpoint seq (rs : list regex) : regex :=
  match rs with
  | [] => Eps
  | [r] => r
  | r :: rs' => Cat r (seq rs')
  end.

Fixpoint alts (rs : list regex) : regex :=
  match rs with
  | [] => Eps
  | [r] => r
  | r :: rs' => Alt r (alts rs')
  end.

Definition star (r : regex) : regex := Rep true 0 None r.        (* r*  *)
Definition plus (r : regex) : regex := Rep true 1 None r.        (* r+  *)
Definition opt (r : regex) : regex := Rep true 0 (Some 1) r.     (* r?  *)
Definition star_lazy (r : regex) : regex := Rep false 0 None r.  (* r*? *)
Definition plus_lazy (r : regex) : regex := Rep false 1 None r.  (* r+? *)
Definition times (lo hi : nat) (r : regex) : regex :=
  Rep true lo (Some hi) r.                                       (* r{lo,hi} *)

Definition digit : regex := Cls Str.is_digit.                    (* \d *)
Definition space : regex := Cls Str.is_space.                    (* \s *)
Definition upper_az : regex := Cls Str.is_upper_az.              (* [A-Z] *)
Definition lower_az : regex := Cls Str.is_lower_az.              (* [a-z] *)
(** [.] without the DOTALL flag: anything but a newline *)
Definition dot : regex := Cls (fun c => negb (Ascii.eqb c "010"%char)).
(** [[^.]] *)
Definition not_period : regex := Cls (fun c => negb (Ascii.eqb c "."%char)).

End Re.

(** ** The fragment of spaCy used by the program

    The recognizer is a black box: a document is whatever token sequence
    and entity spans it returned.  Only the accessors that
    [categorize_locations_by_context] and [process_article] call are
    modelled. *)

Module Spacy.

(** A token: its text and its trailing whitespace ([""] or [" "]). *)
Record Token : Type := { tok_text : string; whitespace_ : string }.

(** An entity span [ent]: [ent.text], [ent.label_], [ent.start],
    [ent.end] (token offsets). *)
Record Span : Type :=
  { text : string; label_ : string; start : Z; end_ : Z }.

(** [doc] with its tokens and [doc.ents]. *)
Record Doc : Type := { tokens : list Token; ents : list Span }.

(** [len(doc)] *)
Definition len (doc : Doc) : Z := Z.of_nat (length (tokens doc)).

(** Slice bounds as [Doc.__getitem__] normalizes them: a negative bound
    counts from the end, and both are clamped to the document. *)
Definition normalize_slice (length start stop : Z) : Z * Z :=
  let start := if (start <? 0)%Z then (start + length)%Z else start in
  let start := Z.min length (Z.max 0 start) in
  let stop := if (stop <? 0)%Z then (stop + length)%Z else stop in
  let stop := Z.min length (Z.max start stop) in
  (start, stop).

(** The tokens of [doc[start_idx:end_idx]]. *)
Definition slice (doc : Doc) (start_idx end_idx : Z) : list Token :=
  let '(a, b) := normalize_slice (len doc) start_idx end_idx in
  firstn (Z.to_nat (b - a)) (skipn (Z.to_nat a) (tokens doc)).

Definition text_with_ws (ts : list Token) : string :=
  foldr (fun t acc => tok_text t +:+ whitespace_ t +:+ acc) "" ts.

(** [text[:-1]] *)
Definition drop_last (s : string) : string :=
  String.string_of_list_ascii (removelast (String.list_ascii_of_string s)).

(** [Span.text]: the tokens with their whitespace, without the whitespace
    that trails the last token. *)
Definition span_text (ts : list Token) : string :=
  match last ts with
  | Some t =>
      if String.eqb (whitespace_ t) "" then text_with_ws ts
      else drop_last (text_with_ws ts)
  | None => text_with_ws ts
  end.

End Spacy.

(** ** The program *)

Import Re.
Import Spacy.

(** *** [extract_categorized_numbers] *)

Record numbers : Type :=
  { deaths : list string; injured : list string; affected : list string }.

(** [(\d+)\s*(?:people?|persons?|individuals?)?\s*(?:died|dead|killed|death|deaths)] *)
Definition death_pattern : regex :=
  seq [Grp (plus digit); star space;
       opt (alts [seq [lit "peopl"; opt (Chr "e")];
                  seq [lit "person"; opt (Chr "s")];
                  seq [lit "individual"; opt (Chr "s")]]);
       star space;
       alts [lit "died"; lit "dead"; lit "killed"; lit "death"; lit "deaths"]].

(** [(?:died|dead|killed|death toll|deaths).*?(\d+)] *)
Definition death_pattern2 : regex :=
  seq [alts [lit "died"; lit "dead"; lit "killed"; lit "death toll";
             lit "deaths"];
       star_lazy dot; Grp (plus digit)].

(** [(\d+)\s*(?:people?|persons?)?\s*(?:injured|wounded|hurt)] *)
Definition injured_pattern : regex :=
  seq [Grp (plus digit); star space;
       opt (alts [seq [lit "peopl"; opt (Chr "e")];
                  seq [lit "person"; opt (Chr "s")]]);
       star space;
       alts [lit "injured"; lit "wounded"; lit "hurt"]].

(** [\d+(?:,\d+)*(?:\.\d+)?] *)
Definition number : regex :=
  seq [plus digit; star (seq [Chr ","; plus digit]);
       opt (seq [Chr "."; plus digit])].

(** [(\d+(?:,\d+)*(?:\.\d+)?)\s*(?:million|lakh|thousand|people?|persons?|families)?\s*(?:affected|stranded|marooned|displaced|impacted)] *)
Definition affected_pattern : regex :=
  seq [Grp number; star space;
       opt (alts [lit "million"; lit "lakh"; lit "thousand";
                  seq [lit "peopl"; opt (Chr "e")];
                  seq [lit "person"; opt (Chr "s")];
                  lit "families"]);
       star space;
       alts [lit "affected"; lit "stranded"; lit "marooned"; lit "displaced";
             lit "impacted"]].

(** [(?:affected|stranded|marooned|displaced).*?(\d+(?:,\d+)*(?:\.\d+)?)\s*(?:million|lakh|thousand|people?|families)?] *)
Definition affected_pattern2 : regex :=
  seq [alts [lit "affected"; lit "stranded"; lit "marooned"; lit "displaced"];
       star_lazy dot; Grp number; star space;
       opt (alts [lit "million"; lit "lakh"; lit "thousand";
                  seq [lit "peopl"; opt (Chr "e")];
                  lit "families"])].

(** The three lists as they stand before the [return]. *)
Definition death_matches (text : string) : list string :=
  findall death_pattern (Str.lower text)
  ++ findall death_pattern2 (Str.lower text).

Definition injured_matches (text : string) : list string :=
  findall injured_pattern (Str.lower text).

Definition affected_matches (text : string) : list string :=
  findall affected_pattern (Str.lower text)
  ++ findall affected_pattern2 (Str.lower text).

Definition extract_categorized_numbers (text : string) : numbers :=
  let deaths := death_matches text in
  let injured := injured_matches text in
  let affected := affected_matches text in
  {| deaths := if Str.truthy deaths then Str.list_set deaths
               else ["0 or not mentioned"];
     injured := if Str.truthy injured then Str.list_set injured
                else ["not mentioned"];
     affected := if Str.truthy affected then Str.list_set affected
                 else ["not mentioned"] |}.

(** *** [extract_locations_with_regex] *)

(** The dictionary this function returns has the two keys [districts] and
    [upazilas] only. *)
Record regex_locations : Type :=
  { rx_districts : list string; rx_upazilas : list string }.

(** [[A-Z][a-z]+(?:\s+[A-Z][a-z]+)?] *)
Definition place_name : regex :=
  seq [upper_az; plus lower_az;
       opt (seq [plus space; upper_az; plus lower_az])].

(** [([A-Z][a-z]+(?:\s+[A-Z][a-z]+)?)\s+(?:district|zila|zilla)] *)
Definition district_pattern : regex :=
  seq [Grp place_name; plus space;
       alts [lit "district"; lit "zila"; lit "zilla"]].

(** [([A-Z][a-z]+(?:\s+[A-Z][a-z]+)?)\s+(?:upazila|upazilla|thana|sub-district)] *)
Definition upazila_pattern : regex :=
  seq [Grp place_name; plus space;
       alts [lit "upazila"; lit "upazilla"; lit "thana"; lit "sub-district"]].

(** [\s*(?:--|:)\s*([A-Z][^.]+?)(?:\.|,\s*(?:Nearly|Almost|About|\d))],
    the part the two list patterns share after their keyword. *)
Definition list_tail : list regex :=
  [star space; alts [lit "--"; Chr ":"]; star space;
   Grp (seq [upper_az; plus_lazy not_period]);
   alts [Chr ".";
         seq [Chr ","; star space;
              alts [lit "Nearly"; lit "Almost"; lit "About"; digit]]]].

(** [upazilas?\s*(?:--|:)\s*([A-Z][^.]+?)(?:\.|,\s*(?:Nearly|Almost|About|\d))] *)
Definition list_pattern : regex :=
  seq (lit "upazila" :: opt (Chr "s") :: list_tail).

(** [districts?\s*(?:--|:)\s*([A-Z][^.]+?)(?:\.|,\s*(?:Nearly|Almost|About|\d))] *)
Definition district_list_pattern : regex :=
  seq (lit "district" :: opt (Chr "s") :: list_tail).

(** [,\s*(?:and\s+)?] *)
Definition separator : regex :=
  seq [Chr ","; star space; opt (seq [lit "and"; plus space])].

(** [[p.strip() for p in places if p.strip()]] *)
Definition stripped (places : list string) : list string :=
  map Str.strip
      (filter (fun p => Str.strip p <> "") places).

(** One round of [for match in ...: places = re.split(...); xs.extend(...)] *)
Definition extend_with_places (xs : list string) (matches : list string)
  : list string :=
  foldl (fun acc m => acc ++ stripped (split separator m)) xs matches.

Definition upazila_names (text : string) : list string :=
  extend_with_places (findall upazila_pattern text)
                     (findall list_pattern text).

Definition district_names (text : string) : list string :=
  extend_with_places (findall district_pattern text)
                     (findall district_list_pattern text).

Definition extract_locations_with_regex (text : string) : regex_locations :=
  {| rx_districts := Str.list_set (district_names text);
     rx_upazilas := Str.list_set (upazila_names text) |}.

(** *** [categorize_locations_by_context] *)

(** The dictionary [categorize_locations_by_context] and
    [merge_location_results] return. *)
Record locations : Type :=
  { districts : list string;
    upazilas : list string;
    uncertain_locations : list string }.

Definition upazila_keywords : list string :=
  ["upazila"; "upazilla"; "thana"; "sub-district"].

Definition district_keywords : list string :=
  ["district"; "zila"; "zilla"].

(** [doc[start_idx:end_idx].text.lower()] for the entity [ent]: five
    tokens before and after the span. *)
Definition context_of (doc : Doc) (ent : Span) : string :=
  let start_idx := Z.max 0 (start ent - 5) in
  let end_idx := Z.min (len doc) (end_ ent + 5) in
  Str.lower (span_text (slice doc start_idx end_idx)).

(** The three lists and the flag [context_found], the state of the loops. *)
Record cat_state : Type :=
  { st_districts : list string;
    st_upazilas : list string;
    st_uncertain : list string;
    context_found : bool }.

(** The inner loop [for ent in doc.ents], over the entities not yet
    visited.  It ends at the first [GPE] entity whose text is [loc]
    ([break]), whatever its context says. *)
Fixpoint visit_ents (doc : Doc) (loc : string) (es : list Span)
    (st : cat_state) : cat_state :=
  match es with
  | [] => st
  | ent :: es' =>
      if String.eqb (text ent) loc && String.eqb (label_ ent) "GPE" then
        let context := context_of doc ent in
        if Str.any_in upazila_keywords context then
          {| st_districts := st_districts st;
             st_upazilas := st_upazilas st ++ [loc];
             st_uncertain := st_uncertain st;
             context_found := true |}
        else if Str.any_in district_keywords context then
          {| st_districts := st_districts st ++ [loc];
             st_upazilas := st_upazilas st;
             st_uncertain := st_uncertain st;
             context_found := true |}
        else st
      else visit_ents doc loc es' st
  end.

(** The body of the outer loop [for loc in locations]. *)
Definition visit_loc (doc : Doc) (st : cat_state) (loc : string) : cat_state :=
  let st := {| st_districts := st_districts st;
               st_upazilas := st_upazilas st;
               st_uncertain := st_uncertain st;
               context_found := false |} in
  let st := visit_ents doc loc (ents doc) st in
  if negb (context_found st) then
    {| st_districts := st_districts st;
       st_upazilas := st_upazilas st;
       st_uncertain := st_uncertain st ++ [loc];
       context_found := context_found st |}
  else st.

Definition categorize_locations_by_context (doc : Doc)
    (locs : list string) : locations :=
  let st := foldl (visit_loc doc)
                  {| st_districts := []; st_upazilas := [];
                     st_uncertain := []; context_found := false |} locs in
  {| districts := st_districts st;
     upazilas := st_upazilas st;
     uncertain_locations := st_uncertain st |}.

(** *** [merge_location_results] *)

Definition merge_location_results (spacy_results : locations)
    (regex_results : regex_locations) : locations :=
  let all_districts :=
    Str.list_set (districts spacy_results ++ rx_districts regex_results) in
  let all_upazilas :=
    Str.list_set (upazilas spacy_results ++ rx_upazilas regex_results) in
  {| districts := all_districts;
     upazilas := all_upazilas;
     uncertain_locations := uncertain_locations spacy_results |}.

(** *** [extract_event_date] *)

(** [(?:on|since|from|during)\s+([A-Z][a-z]+\s+\d{1,2}(?:,?\s+\d{4})?)] *)
Definition event_date_pattern : regex :=
  seq [alts [lit "on"; lit "since"; lit "from"; lit "during"]; plus space;
       Grp (seq [upper_az; plus lower_az; plus space; times 1 2 digit;
                 opt (seq [opt (Chr ","); plus space; times 4 4 digit])])].

Definition extract_event_date (dates : list string) (text : string)
  : string :=
  let event_dates := findall event_date_pattern text in
  match event_dates with
  | first :: _ => first
  | [] =>
      match dates with
      | first :: _ => first +:+ " (estimated)"
      | [] => "not clearly mentioned"
      end
  end.

(** *** [process_article], up to the locations and the date

    [doc] is [nlp(text)], the answer of the recognizer. *)

(** The loop that fills [locations] and [dates] from [doc.ents]. *)
Fixpoint collect_ents (es : list Span) (locs dates : list string)
  : list string * list string :=
  match es with
  | [] => (locs, dates)
  | ent :: es' =>
      if String.eqb (label_ ent) "GPE" then
        collect_ents es' (locs ++ [text ent]) dates
      else if String.eqb (label_ ent) "DATE" then
        collect_ents es' locs (dates ++ [text ent])
      else collect_ents es' locs dates
  end.

Definition final_locations (doc : Doc) (text : string) : locations :=
  let '(locs, _) := collect_ents (ents doc) [] [] in
  let regex_locations := extract_locations_with_regex text in
  let spacy_categorized := categorize_locations_by_context doc locs in
  merge_location_results spacy_categorized regex_locations.

Definition event_date (doc : Doc) (text : string) : string :=
  let '(_, dates) := collect_ents (ents doc) [] [] in
  extract_event_date dates text.

(** *** [extract_disaster_type] *)

Definition FLOOD_KEYWORDS : list string :=
  ["flood"; "flooding"; "floodwater"; "flooded"; "inundated"; "waterlogging"].

Definition extract_disaster_type (text : string) : string :=
  let text_lower := Str.lower text in
  let found_keywords :=
    List.filter (fun kw => Str.contains kw text_lower) FLOOD_KEYWORDS in
  if Str.truthy found_keywords then "flood" else "unknown".

(** *** [process_article]: the values it prints

    [doc] is [nlp(text)].  The function ends by printing the four values
    gathered here. *)

Record article_result : Type :=
  { res_disaster_type : string;
    res_event_date : string;
    res_locations : locations;
    res_numbers : numbers }.

Definition process_article (doc : Doc) (text : string) : article_result :=
  {| res_disaster_type := extract_disaster_type text;
     res_event_date := event_date doc text;
     res_locations := final_locations doc text;
     res_numbers := extract_categorized_numbers text |}.

(** *** [main]

    What the script meets outside itself: the file system through
    [os.path.exists], [os.listdir] and [open(...).read()], and the
    recognizer [nlp].  Reading a file gives its text or raises; [inr]
    holds the text of the exception. *)

Record world : Type :=
  { path_exists : string → bool;
    listdir : string → list string;
    read : string → string + string;
    nlp : string → Doc }.

(** What the script writes: a line given to [print], or the block that
    [process_article] prints for a file, held as the values in it. *)
Inductive output : Type :=
| Print (line : string)
| Report (filename : string) (result : article_result).

(** [f.endswith(suffix)] *)
Definition ends_with (suffix f : string) : bool :=
  Str.starts_with (rev (String.list_ascii_of_string suffix))
                  (rev (String.list_ascii_of_string f)).

Definition newline : string := String "010"%char "".

Definition articles_dir : string := "data/raw_articles".

(** The body of the loop over [txt_files]: [os.path.join], the [try]
    block and its [except].  [os.listdir] gives bare names, for which
    [os.path.join] puts "/" between directory and name. *)
Definition process_file (w : world) (filename : string) : output :=
  let filepath := articles_dir +:+ "/" +:+ filename in
  match read w filepath with
  | inl text => Report filename (process_article (nlp w text) text)
  | inr e =>
      Print ("Error processing " +:+ filename +:+ ": " +:+ e +:+ newline)
  end.

Definition main (w : world) : list output :=
  if negb (path_exists w articles_dir) then
    [Print ("Error: Directory '" +:+ articles_dir +:+ "' not found!")]
  else
    let txt_files :=
      List.filter (ends_with ".txt") (listdir w articles_dir) in
    if negb (Str.truthy txt_files) then
      [Print ("No .txt files found in '" +:+ articles_dir +:+ "'")]
    else
      foldl (fun out filename => out ++ [process_file w filename])
        [Print ("Found " +:+ pretty (length txt_files)
                +:+ " article(s) to process..." +:+ newline)]
        txt_files.

(** * Vocabulary of the statements *)

(** ** Matchers

    A matcher passes to its continuation a suffix no longer than its
    input ([within]), a strictly shorter one when it consumes
    ([consuming]), and its answer is an answer of the continuation
    ([answers]). *)

Definition cont (A : Type) : Type := list ascii → capture → option A.
Definition matcher (A : Type) : Type :=
  list ascii → capture → cont A → option A.

Definition within {A} (m : matcher A) : Prop :=
  ∀ s g (k k' : cont A),
    (∀ s' g', length s' ≤ length s → k s' g' = k' s' g') →
    m s g k = m s g k'.

Definition consuming {A} (m : matcher A) : Prop :=
  ∀ s g (k k' : cont A),
    (∀ s' g', length s' < length s → k s' g' = k' s' g') →
    m s g k = m s g k'.

Definition answers {A} (m : matcher A) : Prop :=
  ∀ s g (k : cont A) x, m s g k = Some x → ∃ s' g', k s' g' = Some x.

(** ** The language of a pattern

    [lang r w]: the string [w] as a whole is an instance of the pattern
    [r], whatever the order in which an engine would look for it. *)

Definition hi_ok (hi : option nat) (n : nat) : Prop :=
  match hi with
  | None => True
  | Some h => n ≤ h
  end.

Fixpoint lang (r : regex) (w : list ascii) : Prop :=
  match r with
  | Chr c => w = [c]
  | Cls p => ∃ c, p c = true ∧ w = [c]
  | Eps => w = []
  | Cat r1 r2 => ∃ w1 w2, w = w1 ++ w2 ∧ lang r1 w1 ∧ lang r2 w2
  | Alt r1 r2 => lang r1 w ∨ lang r2 w
  | Rep _ lo hi r' =>
      ∃ ws, w = concat ws ∧ Forall (lang r') ws
            ∧ lo ≤ length ws ∧ hi_ok hi (length ws)
  | Grp r' => lang r' w
  end.

(** Some part of [text] is an instance of [r]. *)
Definition occurs (r : regex) (text : string) : Prop :=
  ∃ pre w post,
    String.list_ascii_of_string text = pre ++ w ++ post ∧ lang r w.

(** A matcher is [sound] for a set of strings when it only answers after
    taking one of them off the front of the input, and [complete] when
    it answers whenever one of them is at the front and the continuation
    accepts what follows. *)
Definition sound {A} (L : list ascii → Prop) (m : matcher A) : Prop :=
  ∀ s g (k : cont A) x,
    m s g k = Some x →
    ∃ w s' g', s = w ++ s' ∧ L w ∧ k s' g' = Some x.

Definition complete {A} (L : list ascii → Prop) (m : matcher A) : Prop :=
  ∀ w t g (k : cont A),
    L w → (∀ g', is_Some (k t g')) → is_Some (m (w ++ t) g k).

(** The patterns of the program. *)
Definition patterns : list regex :=
  [death_pattern; death_pattern2; injured_pattern; affected_pattern;
   affected_pattern2; district_pattern; upazila_pattern; list_pattern;
   district_list_pattern; separator; event_date_pattern].

(** ** The categorizer as a classification of names *)

(** The three outcomes for a name. *)
Inductive tier : Type := District | Upazila | Uncertain.

#[global] Instance tier_eq_dec : EqDecision tier.
Proof. solve_decision. Defined.

(** The test of the inner loop: a [GPE] entity whose text is [loc]. *)
Definition is_gpe_named (loc : string) (ent : Span) : bool :=
  String.eqb (text ent) loc && String.eqb (label_ ent) "GPE".

(** The span the inner loop stops at: the first [GPE] entity of [doc.ents]
    whose text is [loc]. *)
Definition first_gpe (doc : Doc) (loc : string) : option Span :=
  List.find (is_gpe_named loc) (ents doc).

(** The [if]/[elif] cascade on the context: sub-district keywords first. *)
Definition tier_of_context (context : string) : tier :=
  if Str.any_in upazila_keywords context then Upazila
  else if Str.any_in district_keywords context then District
  else Uncertain.

Definition tier_of (doc : Doc) (loc : string) : tier :=
  match first_gpe doc loc with
  | Some ent => tier_of_context (context_of doc ent)
  | None => Uncertain
  end.

(** What one round of the outer loop does to the state. *)
Definition record_tier (t : tier) (loc : string) (st : cat_state)
  : cat_state :=
  match t with
  | Upazila =>
      {| st_districts := st_districts st;
         st_upazilas := st_upazilas st ++ [loc];
         st_uncertain := st_uncertain st;
         context_found := true |}
  | District =>
      {| st_districts := st_districts st ++ [loc];
         st_upazilas := st_upazilas st;
         st_uncertain := st_uncertain st;
         context_found := true |}
  | Uncertain =>
      {| st_districts := st_districts st;
         st_upazilas := st_upazilas st;
         st_uncertain := st_uncertain st ++ [loc];
         context_found := false |}
  end.

(** ** The categories of the numeric facts *)

(** What a category of the result may be, given the pooled matches of its
    patterns: never empty; the sentinel alone when nothing matched; else
    the matched values, each once. *)
Definition category_result (matches : list string) (sentinel : string)
    (result : list string) : Prop :=
  result ≠ []
  ∧ match matches with
    | [] => result = [sentinel]
    | _ :: _ => NoDup result ∧ ∀ x : string, x ∈ result ↔ x ∈ matches
    end.

(** ** Example documents *)

Definition tok (t : string) : Token := {| tok_text := t; whitespace_ := " " |}.
Definition tok_end (t : string) : Token := {| tok_text := t; whitespace_ := "" |}.
Definition gpe (name : string) (i : Z) : Span :=
  {| text := name; label_ := "GPE"; start := i; end_ := (i + 1)%Z |}.

(** "Sadar upazila of Bogra district", with [Bogra] recognized. *)
Definition bogra_doc : Doc :=
  {| tokens := [tok "Sadar"; tok "upazila"; tok "of"; tok "Bogra";
                tok_end "district"];
     ents := [gpe "Bogra" 3] |}.

(** "Dhaka is under water . Relief reached Dhaka today", with both
    mentions of [Dhaka] recognized. *)
Definition dhaka_text : string :=
  "Dhaka is under water. Relief reached Dhaka today".

Definition dhaka_doc : Doc :=
  {| tokens := [tok "Dhaka"; tok "is"; tok "under"; tok_end "water"; tok ".";
                tok "Relief"; tok "reached"; tok "Dhaka"; tok_end "today"];
     ents := [gpe "Dhaka" 0; gpe "Dhaka" 7] |}.

(** ** Strings *)

(** The characters of a string. *)
Definition chars (x : string) : list ascii := String.list_ascii_of_string x.

(** [w] is a contiguous part of [s]. *)
Definition part_of (w s : list ascii) : Prop := ∃ a b, s = a ++ w ++ b.

(** ** What a match captures *)

(** The patterns under the capturing groups of [r]. *)
Fixpoint groups (r : regex) : list regex :=
  match r with
  | Chr _ | Cls _ | Eps => []
  | Cat r1 r2 | Alt r1 r2 => groups r1 ++ groups r2
  | Rep _ _ _ r' => groups r'
  | Grp r' => [r']
  end.

(** Every match of [r] goes through a capturing group. *)
Fixpoint sets_group (r : regex) : bool :=
  match r with
  | Chr _ | Cls _ | Eps | Rep _ _ _ _ => false
  | Cat r1 r2 => sets_group r1 || sets_group r2
  | Alt r1 r2 => sets_group r1 && sets_group r2
  | Grp _ => true
  end.

(** The capture [g], when set, is an instance of one of the patterns [G]
    and a part of the text [T]. *)
Definition captured (T : list ascii) (G : list regex) (g : capture) : Prop :=
  ∀ w, g = Some w → (∃ rg, rg ∈ G ∧ lang rg w) ∧ part_of w T.

(** A matcher run on a suffix of [T] hands its continuation a suffix of
    [T] and keeps [captured]; a capture that is set stays set, and is set
    after the matcher when [sets] holds. *)
Definition threads {A} (T : list ascii) (G : list regex) (sets : bool)
    (m : matcher A) : Prop :=
  ∀ s g (k : cont A) x,
    s `suffix_of` T → captured T G g → m s g k = Some x →
    ∃ s' g',
      s' `suffix_of` T ∧ captured T G g'
      ∧ (is_Some g → is_Some g') ∧ (sets = true → is_Some g')
      ∧ k s' g' = Some x.

(** ** Numerals *)

Definition starts_digit (w : list ascii) : Prop :=
  ∃ c w', w = c :: w' ∧ Str.is_digit c = true.

Definition ends_digit (w : list ascii) : Prop :=
  ∃ w' c, w = w' ++ [c] ∧ Str.is_digit c = true.

(** A non-empty string of decimal digits. *)
Definition digits (x : string) : Prop :=
  x ≠ "" ∧ Forall (λ c, Str.is_digit c = true) (chars x).

Definition numeral_char (c : ascii) : Prop :=
  Str.is_digit c = true ∨ c = ","%char ∨ c = "."%char.

(** A string of digits, commas and full stops that begins and ends with a
    digit. *)
Definition numeral (x : string) : Prop :=
  starts_digit (chars x) ∧ ends_digit (chars x)
  ∧ Forall numeral_char (chars x).

(** What may follow the first digits of a numeral. *)
Definition numeral_tail (w : list ascii) : Prop :=
  (w = [] ∨ ends_digit w) ∧ Forall numeral_char w.

(** ** Place names *)

(** A non-empty string without a comma or a full stop that neither
    begins nor ends with white space. *)
Definition clean_name (x : string) : Prop :=
  x ≠ ""
  ∧ (∀ c, head (chars x) = Some c → Str.is_space c = false)
  ∧ (∀ c, last (chars x) = Some c → Str.is_space c = false)
  ∧ Forall (λ c, c ≠ ","%char ∧ c ≠ "."%char) (chars x).

(** Every instance of [r] has a capital letter [A-Z]. *)
Definition capitalized (r : regex) : Prop :=
  ∀ w, lang r w → Exists (λ c, Str.is_upper_az c = true) w.

(** ** Example world *)

(** A directory with two articles and a stray file; the first article
    cannot be read. *)
Definition example_world : world :=
  {| path_exists := λ _, true;
     listdir := λ _, ["a.txt"; "notes.md"; "b.txt"];
     read := λ path,
       if String.eqb path "data/raw_articles/a.txt"
       then inr "invalid start byte"
       else inl "Flooding in Feni district";
     nlp := λ _, {| tokens := []; ents := [] |} |}.

(** * Properties *)

(** ** The matcher *)

Section Matcher.

Context {A : Type}.

Implicit Types (k : cont A) (body : matcher A).

Lemma rep_loop_within body greedy lo hi fuel count :
  within body → within (λ s g k, rep_loop body greedy lo hi k fuel count s g).
Proof.
  intros Hbody. revert count.
  induction fuel as [|fuel IH]; intros count s g k k' Hk; cbn [rep_loop].
  - by rewrite (Hk s g).
  - rewrite (Hk s g) by done.
    destruct greedy, (below hi count); try done;
      (erewrite Hbody; [reflexivity|]); intros s' g' Hle; cbv beta;
      (destruct (length s' <? length s) eqn:Hlt; [|done]);
      apply IH; intros; apply Hk; lia.
Qed.

Lemma rep_loop_consuming body greedy lo hi fuel (s0 : list ascii)
    (k k' : cont A) :
  consuming body →
  (∀ s' g', length s' < length s0 → k s' g' = k' s' g') →
  ∀ count s g,
    length s < length s0 ∨ (length s ≤ length s0 ∧ count < lo) →
    rep_loop body greedy lo hi k fuel count s g
    = rep_loop body greedy lo hi k' fuel count s g.
Proof.
  intros Hbody Hk.
  assert (Hstop : ∀ count s g,
             length s < length s0 ∨ (length s ≤ length s0 ∧ count < lo) →
             (if lo <=? count then k s g else None)
             = (if lo <=? count then k' s g else None)).
  { intros count s g [Hlt|[_ Hlo]].
    - by rewrite Hk.
    - by rewrite (proj2 (Nat.leb_gt lo count)). }
  induction fuel as [|fuel IH]; intros count s g Hs; cbn [rep_loop].
  - by rewrite (Hstop count s g).
  - rewrite (Hstop count s g) by done.
    destruct greedy, (below hi count); try done;
      (erewrite Hbody; [reflexivity|]); intros s' g' Hlt; cbv beta;
      rewrite (proj2 (Nat.ltb_lt _ _) Hlt); apply IH; lia.
Qed.

Lemma rep_loop_answers body greedy lo hi (k : cont A) fuel :
  answers body →
  ∀ count s g x,
    rep_loop body greedy lo hi k fuel count s g = Some x →
    ∃ s' g', k s' g' = Some x.
Proof.
  intros Hbody.
  induction fuel as [|fuel IH]; intros count s g x; cbn [rep_loop].
  - destruct greedy, (lo <=? count); try done; eauto.
    destruct (k s g) eqn:Hk; [|done]. intros [= <-]. eauto.
  - assert (Hmore : ∀ y,
               body s g (λ s' g',
                 if length s' <? length s
                 then rep_loop body greedy lo hi k fuel (S count) s' g'
                 else None) = Some y →
               ∃ s' g', k s' g' = Some y).
    { intros y Hy. apply Hbody in Hy as (s' & g' & Hy).
      destruct (length s' <? length s); [|done]. eauto. }
    destruct greedy.
    + destruct (below hi count).
      * destruct (body s g _) eqn:Hb.
        -- intros [= <-]. by apply Hmore.
        -- destruct (lo <=? count); [eauto|done].
      * destruct (lo <=? count); [eauto|done].
    + destruct (lo <=? count).
      * destruct (k s g) eqn:Hk0.
        -- intros [= <-]. eauto.
        -- destruct (below hi count); [apply Hmore|done].
      * destruct (below hi count); [apply Hmore|done].
Qed.

Lemma run_within (r : regex) : within (A:=A) (run r).
Proof.
  induction r as [c|p| |r1 IH1 r2 IH2|r1 IH1 r2 IH2|greedy lo hi r IH|r IH];
    intros s g k k' Hk; cbn [run].
  - destruct s as [|a s]; [done|]. rewrite (Hk s g); [done|simpl; lia].
  - destruct s as [|a s]; [done|]. rewrite (Hk s g); [done|simpl; lia].
  - by apply Hk.
  - apply IH1. intros s' g' Hle. apply IH2. intros. apply Hk. lia.
  - by rewrite (IH1 s g k k'), (IH2 s g k k').
  - by apply (rep_loop_within (run r) greedy lo hi (length s) 0 IH).
  - apply IH. intros s' g' Hle. by apply Hk.
Qed.

Lemma run_consuming (r : regex) :
  nullable r = false → consuming (A:=A) (run r).
Proof.
  induction r as [c|p| |r1 IH1 r2 IH2|r1 IH1 r2 IH2|greedy lo hi r IH|r IH];
    cbn [nullable]; intros Hnull s g k k' Hk; cbn [run].
  - destruct s as [|a s]; [done|]. rewrite (Hk s g); [done|simpl; lia].
  - destruct s as [|a s]; [done|]. rewrite (Hk s g); [done|simpl; lia].
  - done.
  - apply andb_false_iff in Hnull as [Hnull|Hnull].
    + apply IH1; [done|]. intros s' g' Hlt.
      apply run_within. intros. apply Hk. lia.
    + apply run_within. intros s' g' Hle.
      apply IH2; [done|]. intros. apply Hk. lia.
  - apply orb_false_iff in Hnull as [Hnull1 Hnull2].
    by rewrite (IH1 Hnull1 s g k k'), (IH2 Hnull2 s g k k').
  - apply orb_false_iff in Hnull as [Hlo Hnull].
    apply Nat.eqb_neq in Hlo.
    apply (rep_loop_consuming (run r) greedy lo hi (length s) s k k');
      [by apply IH|done|right; lia].
  - apply IH; [done|]. intros s' g' Hlt. by apply Hk.
Qed.

Lemma run_answers (r : regex) : answers (A:=A) (run r).
Proof.
  induction r as [c|p| |r1 IH1 r2 IH2|r1 IH1 r2 IH2|greedy lo hi r IH|r IH];
    intros s g k x; cbn [run].
  - destruct s as [|a s]; [done|]. destruct (Ascii.eqb a c); [eauto|done].
  - destruct s as [|a s]; [done|]. destruct (p a); [eauto|done].
  - eauto.
  - intros H. apply IH1 in H as (s' & g' & H). by apply IH2 in H.
  - destruct (run r1 s g k) eqn:H1.
    + intros [= <-]. by apply IH1 in H1.
    + apply IH2.
  - by apply rep_loop_answers.
  - intros H. apply IH in H as (s' & g' & H). eauto.
Qed.

(** The test that an iteration of a quantifier made progress never
    rejects an iteration of a body that cannot match the empty string. *)
Lemma progress_test_idle (r : regex) s g (k : cont A) :
  nullable r = false →
  run r s g (λ s' g', if length s' <? length s then k s' g' else None)
  = run r s g k.
Proof.
  intros Hnull. apply run_consuming; [done|]. intros s' g' Hlt.
  by rewrite (proj2 (Nat.ltb_lt _ _) Hlt).
Qed.

(** For such a body the loop runs out of input before it runs out of
    fuel: more fuel than [length s] changes nothing. *)
Lemma rep_loop_fuel (r : regex) greedy lo hi (k : cont A) fuel :
  nullable r = false →
  ∀ count s g,
    length s ≤ fuel →
    rep_loop (run r) greedy lo hi k (S fuel) count s g
    = rep_loop (run r) greedy lo hi k fuel count s g.
Proof.
  intros Hnull.
  induction fuel as [|fuel IH]; intros count s g Hlen.
  - destruct s as [|a s]; [|simpl in Hlen; lia].
    cbn [rep_loop].
    assert (Hnone : ∀ k0 : cont A, run r [] g k0 = None).
    { intros k0. rewrite (run_consuming r Hnull [] g k0 (λ _ _, None)).
      - destruct (run r [] g (λ _ _, None)) eqn:H; [|done].
        by apply run_answers in H as (? & ? & ?).
      - simpl. intros. lia. }
    rewrite Hnone. by destruct (below hi count).
  - cbn [rep_loop] in *.
    destruct greedy, (below hi count); try done;
      (erewrite run_within; [reflexivity|]); intros s' g' Hle; cbv beta;
      (destruct (length s' <? length s) eqn:Hlt; [|done]);
      apply Nat.ltb_lt in Hlt; apply IH; lia.
Qed.

End Matcher.

(** A match of a pattern that cannot match the empty string is not
    empty, so [scan] moves past it. *)
Lemma match_at_consumes (r : regex) (s s' : list ascii) (g : capture) :
  nullable r = false →
  match_at r s = Some (s', g) →
  length s' < length s.
Proof.
  intros Hnull. unfold match_at.
  rewrite <- (progress_test_idle r s None (λ s' g, Some (s', g)) Hnull).
  intros H. apply run_answers in H as (s'' & g'' & H).
  destruct (length s'' <? length s) eqn:Hlt; [|done].
  injection H as -> ->. by apply Nat.ltb_lt.
Qed.

(** ** The matcher finds the instances of a pattern *)

Lemma lang_nonempty (r : regex) (w : list ascii) :
  nullable r = false → lang r w → w ≠ [].
Proof.
  revert w.
  induction r as [c|p| |r1 IH1 r2 IH2|r1 IH1 r2 IH2|greedy lo hi r IH|r IH];
    cbn [nullable lang]; intros w Hnull Hw.
  - by subst.
  - by destruct Hw as (c & _ & ->).
  - done.
  - destruct Hw as (w1 & w2 & -> & H1 & H2). intros Happ.
    apply app_eq_nil in Happ as [-> ->].
    apply andb_false_iff in Hnull as [Hnull|Hnull].
    + by apply (IH1 [] Hnull).
    + by apply (IH2 [] Hnull).
  - apply orb_false_iff in Hnull as [Hnull1 Hnull2].
    destruct Hw as [Hw|Hw]; [by apply IH1|by apply IH2].
  - apply orb_false_iff in Hnull as [Hlo Hnull].
    apply Nat.eqb_neq in Hlo.
    destruct Hw as (ws & -> & Hws & Hlen & _).
    destruct ws as [|w ws]; [simpl in Hlen; lia|].
    apply Forall_cons in Hws as [Hw _]. simpl. intros Happ.
    apply app_eq_nil in Happ as [-> _]. by apply (IH [] Hnull).
  - by apply IH.
Qed.

Section Search.

Context {A : Type}.
Implicit Types (k : cont A) (body : matcher A).

Lemma rep_loop_sound L body greedy lo hi k fuel :
  sound L body →
  ∀ count s g x,
    hi_ok hi count →
    rep_loop body greedy lo hi k fuel count s g = Some x →
    ∃ ws s' g',
      s = concat ws ++ s' ∧ Forall L ws
      ∧ lo ≤ count + length ws ∧ hi_ok hi (count + length ws)
      ∧ k s' g' = Some x.
Proof.
  intros Hbody. unfold sound in Hbody.
  assert (Hstop : ∀ count s g x,
             hi_ok hi count →
             (if lo <=? count then k s g else None) = Some x →
             ∃ ws s' g',
               s = concat ws ++ s' ∧ Forall L ws
               ∧ lo ≤ count + length ws ∧ hi_ok hi (count + length ws)
               ∧ k s' g' = Some x).
  { intros count s g x Hhi Hx.
    destruct (lo <=? count) eqn:Hlo; [|done]. apply Nat.leb_le in Hlo.
    exists [], s, g. rewrite Nat.add_0_r. by repeat split. }
  induction fuel as [|fuel IH]; intros count s g x Hhi; cbn [rep_loop].
  { destruct greedy; [by apply (Hstop count s g)|].
    destruct (if lo <=? count then k s g else None) eqn:Hk; [|done].
    intros [= <-]. by apply (Hstop count s g). }
  assert (Hmore : ∀ y,
             (if below hi count then
                body s g (λ s' g',
                  if length s' <? length s
                  then rep_loop body greedy lo hi k fuel (S count) s' g'
                  else None)
              else None) = Some y →
             ∃ ws s' g',
               s = concat ws ++ s' ∧ Forall L ws
               ∧ lo ≤ count + length ws ∧ hi_ok hi (count + length ws)
               ∧ k s' g' = Some y).
  { intros y Hy. destruct (below hi count) eqn:Hbelow; [|done].
    apply Hbody in Hy as (w & s1 & g1 & -> & Hw & Hy).
    destruct (length s1 <? length (w ++ s1)); [|done].
    apply IH in Hy as (ws & s' & g' & -> & Hws & Hlo & Hhi' & Hy).
    - exists (w :: ws), s', g'. simpl. rewrite <- app_assoc.
      replace (count + S (length ws)) with (S count + length ws) by lia.
      repeat split; try done. by constructor.
    - destruct hi as [h|]; [|done]. simpl in *.
      apply Nat.ltb_lt in Hbelow. lia. }
  destruct greedy.
  - destruct (if below hi count then _ else None) eqn:Hm.
    + intros [= <-]. by apply Hmore.
    + by apply (Hstop count s g).
  - destruct (if lo <=? count then k s g else None) eqn:Hk.
    + intros [= <-]. by apply (Hstop count s g).
    + apply Hmore.
Qed.

Lemma rep_loop_complete L body greedy lo hi k t :
  complete L body →
  (∀ g', is_Some (k t g')) →
  ∀ ws fuel count g,
    Forall (λ w, L w ∧ w ≠ []) ws →
    lo ≤ count + length ws →
    hi_ok hi (count + length ws) →
    length (concat ws ++ t) ≤ fuel →
    is_Some (rep_loop body greedy lo hi k fuel count (concat ws ++ t) g).
Proof.
  intros Hbody Hk. unfold complete in Hbody.
  induction ws as [|w ws IH]; intros fuel count g Hws Hlo Hhi Hfuel.
  - simpl in *. rewrite Nat.add_0_r in Hlo.
    assert (Hstop : (if lo <=? count then k t g else None) = k t g).
    { by rewrite (proj2 (Nat.leb_le lo count)). }
    destruct (Hk g) as [y Hy].
    destruct fuel; cbn [rep_loop]; rewrite Hstop, Hy;
      destruct greedy; try done;
      match goal with
      | |- is_Some (match ?o with Some _ => _ | None => _ end) =>
          by destruct o
      end.
  - apply Forall_cons in Hws as [[Hw Hne] Hws].
    simpl in Hlo, Hhi. cbn [concat] in *. rewrite <- app_assoc in *.
    assert (Hlen : 0 < length w) by (destruct w; [done|simpl; lia]).
    rewrite length_app in Hfuel.
    destruct fuel as [|fuel]; [lia|]. cbn [rep_loop].
    assert (Hbelow : below hi count = true).
    { destruct hi as [h|]; [|done]. simpl in *. apply Nat.ltb_lt. lia. }
    rewrite Hbelow.
    assert (Hmore : is_Some
              (body (w ++ concat ws ++ t) g (λ s' g',
                 if length s' <? length (w ++ concat ws ++ t)
                 then rep_loop body greedy lo hi k fuel (S count) s' g'
                 else None))).
    { apply Hbody; [done|]. intros g'.
      rewrite (proj2 (Nat.ltb_lt _ _)) by (rewrite (length_app w); lia).
      apply IH; [done|lia| |lia].
      by replace (S count + length ws) with (count + S (length ws)) by lia. }
    destruct Hmore as [y Hy]. rewrite Hy.
    destruct greedy; [done|].
    by destruct (if lo <=? count then _ else None).
Qed.

Lemma run_sound (r : regex) : sound (A:=A) (lang r) (run r).
Proof.
  induction r as [c|p| |r1 IH1 r2 IH2|r1 IH1 r2 IH2|greedy lo hi r IH|r IH];
    intros s g k x; cbn [run lang].
  - destruct s as [|a s]; [done|].
    destruct (Ascii.eqb_spec a c) as [->|]; [|done].
    intros Hx. by exists [c], s, g.
  - destruct s as [|a s]; [done|]. destruct (p a) eqn:Hp; [|done].
    intros Hx. exists [a], s, g. eauto.
  - intros Hx. by exists [], s, g.
  - intros Hx. apply IH1 in Hx as (w1 & s1 & g1 & -> & H1 & Hx).
    apply IH2 in Hx as (w2 & s2 & g2 & -> & H2 & Hx).
    exists (w1 ++ w2), s2, g2. rewrite <- app_assoc. eauto 10.
  - destruct (run r1 s g k) eqn:H1.
    + intros [= <-]. apply IH1 in H1 as (w & s' & g' & -> & Hw & Hx). eauto 10.
    + intros Hx. apply IH2 in Hx as (w & s' & g' & -> & Hw & Hx). eauto 10.
  - intros Hx.
    apply (rep_loop_sound (lang r) (run r) greedy lo hi k (length s) IH 0)
      in Hx as (ws & s' & g' & -> & Hws & Hlo & Hhi & Hx).
    + exists (concat ws), s', g'. eauto 10.
    + destruct hi; simpl; [lia|done].
  - intros Hx. apply IH in Hx as (w & s' & g' & -> & Hw & Hx). eauto 10.
Qed.

Lemma run_complete (r : regex) :
  productive r = true → complete (A:=A) (lang r) (run r).
Proof.
  induction r as [c|p| |r1 IH1 r2 IH2|r1 IH1 r2 IH2|greedy lo hi r IH|r IH];
    cbn [productive]; intros Hprod w t g k Hw Hk; cbn [lang] in Hw;
    cbn [run].
  - subst w. simpl. by rewrite Ascii.eqb_refl.
  - destruct Hw as (c & Hp & ->). simpl. by rewrite Hp.
  - by subst w.
  - apply andb_true_iff in Hprod as [Hp1 Hp2].
    destruct Hw as (w1 & w2 & -> & H1 & H2). rewrite <- app_assoc.
    apply IH1; [done..|]. intros g'. by apply IH2.
  - apply andb_true_iff in Hprod as [Hp1 Hp2].
    destruct (run r1 (w ++ t) g k) eqn:H1; [done|].
    destruct Hw as [Hw|Hw].
    + destruct (IH1 Hp1 w t g k Hw Hk) as [y Hy]. congruence.
    + by apply IH2.
  - apply andb_true_iff in Hprod as [Hnull Hprod].
    apply negb_true_iff in Hnull.
    destruct Hw as (ws & -> & Hws & Hlo & Hhi).
    apply (rep_loop_complete (lang r)); [by apply IH|done| |done|done|done].
    eapply Forall_impl; [exact Hws|]. intros w Hw. split; [done|].
    by apply lang_nonempty with r.
  - apply IH; [done..|]. intros g'. apply Hk.
Qed.

End Search.

Lemma match_at_sound (r : regex) (s s' : list ascii) (g : capture) :
  match_at r s = Some (s', g) → ∃ w, s = w ++ s' ∧ lang r w.
Proof.
  intros H. apply run_sound in H as (w & s1 & g1 & -> & Hw & [= -> ->]).
  eauto.
Qed.

Lemma match_at_complete (r : regex) (w t : list ascii) :
  productive r = true → lang r w → is_Some (match_at r (w ++ t)).
Proof. intros Hprod Hw. by apply run_complete. Qed.

Lemma search_Some (r : regex) (s : list ascii) m :
  search r s = Some m → ∃ pre t, s = pre ++ t ∧ match_at r t = Some m.
Proof.
  induction s as [|c s IH]; cbn [search].
  - destruct (match_at r []) eqn:H; [|done]. intros [= <-]. by exists [], [].
  - destruct (match_at r (c :: s)) eqn:H.
    + intros [= <-]. by exists [], (c :: s).
    + intros Hs. apply IH in Hs as (pre & t & -> & Ht).
      by exists (c :: pre), t.
Qed.

Lemma search_None (r : regex) (pre t : list ascii) :
  search r (pre ++ t) = None → match_at r t = None.
Proof.
  induction pre as [|c pre IH]; simpl.
  - destruct t; cbn [search]; by destruct (match_at r _).
  - destruct (match_at r (c :: pre ++ t)); [done|]. apply IH.
Qed.

Lemma scan_nil (r : regex) (grouped : bool) (s : list ascii) :
  flat_map (report grouped) (scan r O s) = [] ↔ search r s = None.
Proof.
  induction s as [|c s IH]; cbn [scan search].
  - by destruct (match_at r []) as [[s' g]|].
  - destruct (match_at r (c :: s)) as [[s' g]|]; [done|]. exact IH.
Qed.

(** [findall] reports nothing exactly when no part of the text is an
    instance of the pattern. *)
Lemma findall_nil (r : regex) (article : string) :
  productive r = true →
  findall r article = [] ↔ ¬ occurs r article.
Proof.
  intros Hprod. unfold findall, occurs. rewrite scan_nil. split.
  - intros Hnone (pre & w & post & Heq & Hw). rewrite Heq in Hnone.
    apply search_None in Hnone.
    destruct (match_at_complete r w post Hprod Hw) as [m Hm]. congruence.
  - intros Hno.
    destruct (search r (String.list_ascii_of_string article))
      as [[s' g]|] eqn:Hs; [|done].
    apply search_Some in Hs as (pre & t & Heq & Hm).
    apply match_at_sound in Hm as (w & -> & Hw).
    destruct Hno. eauto.
Qed.

(** No pattern of the program can match the empty string, and every
    quantifier in them is over a body that consumes input: the progress
    test and the fuel of [rep_loop] and the empty-match case of [scan]
    play no part in what the program computes. *)
Lemma patterns_consume :
  forallb (λ r, productive r && negb (nullable r)) patterns = true.
Proof. reflexivity. Qed.

(** ** [list(set(xs))] *)

Section ListSet.

Implicit Types (xs : list string) (x : string).

Lemma list_set_elem xs x : x ∈ Str.list_set xs ↔ x ∈ xs.
Proof.
  unfold Str.list_set. rewrite elem_of_elements. apply elem_of_list_to_set.
Qed.

Lemma list_set_NoDup xs : NoDup (Str.list_set xs).
Proof. unfold Str.list_set. apply NoDup_elements. Qed.

Lemma list_set_nonempty xs : xs ≠ [] → Str.list_set xs ≠ [].
Proof.
  destruct xs as [|x xs]; [done|]. intros _ Hnil.
  assert (Hx : x ∈ Str.list_set (x :: xs)).
  { apply list_set_elem. left. }
  rewrite Hnil in Hx. by apply elem_of_nil in Hx.
Qed.

End ListSet.

(** ** The categorizer files names by tier *)

Section Categorizer.

Variable doc : Doc.

Lemma visit_ents_find loc es st :
  visit_ents doc loc es st =
  match List.find (is_gpe_named loc) es with
  | Some ent =>
      match tier_of_context (context_of doc ent) with
      | Uncertain => st
      | t => record_tier t loc st
      end
  | None => st
  end.
Proof.
  induction es as [|ent es IH]; [done|].
  cbn [visit_ents List.find]. unfold is_gpe_named at 1.
  destruct (String.eqb (text ent) loc && String.eqb (label_ ent) "GPE");
    [|apply IH].
  unfold tier_of_context.
  destruct (Str.any_in upazila_keywords (context_of doc ent)); [done|].
  by destruct (Str.any_in district_keywords (context_of doc ent)).
Qed.

Lemma visit_loc_tier st loc :
  visit_loc doc st loc = record_tier (tier_of doc loc) loc st.
Proof.
  unfold visit_loc. rewrite visit_ents_find.
  unfold tier_of, first_gpe.
  destruct (List.find (is_gpe_named loc) (ents doc)) as [ent|]; [|done].
  by destruct (tier_of_context (context_of doc ent)).
Qed.

Lemma foldl_visit_loc locs st :
  let st' := foldl (visit_loc doc) st locs in
  st_districts st' =
    st_districts st ++ filter (λ loc, tier_of doc loc = District) locs
  ∧ st_upazilas st' =
    st_upazilas st ++ filter (λ loc, tier_of doc loc = Upazila) locs
  ∧ st_uncertain st' =
    st_uncertain st ++ filter (λ loc, tier_of doc loc = Uncertain) locs.
Proof.
  revert st. induction locs as [|loc locs IH]; intros st; simpl.
  { by rewrite !app_nil_r. }
  destruct (IH (visit_loc doc st loc)) as (Hd & Hu & Hn).
  rewrite Hd, Hu, Hn, visit_loc_tier. clear IH Hd Hu Hn.
  rewrite !filter_cons.
  destruct (tier_of doc loc); simpl;
    repeat case_decide; try done; by rewrite <- ?app_assoc.
Qed.

(** The categorizer files every occurrence of a name under the tier of
    the first [GPE] span with that text, in input order. *)
Lemma categorize_by_tier locs :
  let c := categorize_locations_by_context doc locs in
  districts c = filter (λ loc, tier_of doc loc = District) locs
  ∧ upazilas c = filter (λ loc, tier_of doc loc = Upazila) locs
  ∧ uncertain_locations c = filter (λ loc, tier_of doc loc = Uncertain) locs.
Proof.
  unfold categorize_locations_by_context; simpl.
  apply (foldl_visit_loc locs
           {| st_districts := []; st_upazilas := []; st_uncertain := [];
              context_found := false |}).
Qed.

End Categorizer.

(** ** The contextual location categorizer *)

(** C1. A recognized place name whose context window (five tokens either
    side of the first [GPE] span with that text, clamped to the document)
    contains both a sub-district keyword and a district keyword is filed
    under upazilas, and neither under districts nor under uncertain. *)
Theorem tie_break_sub_district (doc : Doc) (locs : list string)
    (loc : string) (ent : Span) :
  loc ∈ locs →
  first_gpe doc loc = Some ent →
  Str.any_in upazila_keywords (context_of doc ent) = true →
  Str.any_in district_keywords (context_of doc ent) = true →
  let c := categorize_locations_by_context doc locs in
  loc ∈ upazilas c ∧ (loc ∉ districts c) ∧ (loc ∉ uncertain_locations c).
Proof.
  intros Hin Hfirst Hsub _ c.
  assert (Ht : tier_of doc loc = Upazila).
  { unfold tier_of. rewrite Hfirst. unfold tier_of_context. by rewrite Hsub. }
  destruct (categorize_by_tier doc locs) as (Hd & Hu & Hn).
  subst c. rewrite Hd, Hu, Hn, !list_elem_of_filter, Ht.
  split; [done|]. split; intros [? _]; discriminate.
Qed.

Lemma tie_break_sub_district_witness :
  let c := categorize_locations_by_context bogra_doc ["Bogra"] in
  "Bogra" ∈ upazilas c ∧ ("Bogra" ∉ districts c)
  ∧ ("Bogra" ∉ uncertain_locations c).
Proof.
  apply (tie_break_sub_district bogra_doc ["Bogra"] "Bogra" (gpe "Bogra" 3)).
  - left.
  - vm_compute. reflexivity.
  - vm_compute. reflexivity.
  - vm_compute. reflexivity.
Defined.

(** C3, for the recognizer path.  In the result of the categorizer a name
    appears in at most one of the three lists.  The result of the regex
    path has two lists; a name is in both exactly when a district pattern
    and a sub-district pattern each produce it. *)
Theorem categorizer_one_tier_per_name :
  (∀ (doc : Doc) (locs : list string) (name : string),
     let c := categorize_locations_by_context doc locs in
     ¬ (name ∈ districts c ∧ name ∈ upazilas c)
     ∧ ¬ (name ∈ districts c ∧ name ∈ uncertain_locations c)
     ∧ ¬ (name ∈ upazilas c ∧ name ∈ uncertain_locations c))
  ∧ (∀ (article name : string),
       let r := extract_locations_with_regex article in
       (name ∈ rx_districts r ∧ name ∈ rx_upazilas r)
       ↔ (name ∈ district_names article ∧ name ∈ upazila_names article)).
Proof.
  split.
  - intros doc locs name c.
    destruct (categorize_by_tier doc locs) as (Hd & Hu & Hn).
    subst c. rewrite Hd, Hu, Hn, !list_elem_of_filter.
    repeat split; intros [[H1 _] [H2 _]]; congruence.
  - intros article name r. subst r. simpl. by rewrite !list_set_elem.
Qed.

(** C3 as stated fails on the regex path: on this text the name [Dhaka]
    is in both lists of its result. *)
Lemma regex_path_name_in_two_tiers :
  let r := extract_locations_with_regex "Dhaka district and Dhaka upazila" in
  ¬ (∀ name : string, ¬ (name ∈ rx_districts r ∧ name ∈ rx_upazilas r)).
Proof.
  intros r Hone. apply (Hone "Dhaka"). subst r. simpl.
  rewrite !list_set_elem. split; vm_compute; left.
Qed.

(** ** The location merger *)

Section Merger.

Implicit Types (spacy_results : locations) (regex_results : regex_locations).

Lemma merge_districts spacy_results regex_results name :
  name ∈ districts (merge_location_results spacy_results regex_results)
  ↔ name ∈ districts spacy_results ∨ name ∈ rx_districts regex_results.
Proof. simpl. by rewrite list_set_elem, elem_of_app. Qed.

Lemma merge_upazilas spacy_results regex_results name :
  name ∈ upazilas (merge_location_results spacy_results regex_results)
  ↔ name ∈ upazilas spacy_results ∨ name ∈ rx_upazilas regex_results.
Proof. simpl. by rewrite list_set_elem, elem_of_app. Qed.

End Merger.

(** C2. Whatever the recognizer path found, a name the regex extractor
    put in its districts (resp. upazilas) list for a text is in the
    districts (resp. upazilas) list of the merged result. *)
Theorem merge_keeps_regex_names (article : string)
    (spacy_results : locations) (name : string) :
  let regex_results := extract_locations_with_regex article in
  let merged := merge_location_results spacy_results regex_results in
  (name ∈ rx_districts regex_results → name ∈ districts merged)
  ∧ (name ∈ rx_upazilas regex_results → name ∈ upazilas merged).
Proof.
  intros regex_results merged. subst merged. split; intros H.
  - apply merge_districts. by right.
  - apply merge_upazilas. by right.
Qed.

Lemma merge_keeps_regex_names_witness :
  "Feni" ∈ districts
    (merge_location_results
       {| districts := []; upazilas := []; uncertain_locations := ["Dhaka"] |}
       (extract_locations_with_regex "Floods hit Feni district"))
  ∧ "Sadar" ∈ upazilas
      (merge_location_results
         {| districts := ["Feni"]; upazilas := []; uncertain_locations := [] |}
         (extract_locations_with_regex "Sadar upazila is cut off")).
Proof.
  split.
  - apply (proj1 (merge_keeps_regex_names "Floods hit Feni district"
                    {| districts := []; upazilas := [];
                       uncertain_locations := ["Dhaka"] |} "Feni")).
    vm_compute. left.
  - apply (proj2 (merge_keeps_regex_names "Sadar upazila is cut off"
                    {| districts := ["Feni"]; upazilas := [];
                       uncertain_locations := [] |} "Sadar")).
    vm_compute. left.
Defined.

(** C4. The uncertain list of the merged result is the uncertain list of
    the recognizer path, unchanged; the regex result has no part in it.
    In [process_article] it is the uncertain list of the categorizer. *)
Theorem merged_uncertain_is_recognizer_uncertain :
  (∀ (spacy_results : locations) (regex_results : regex_locations),
     uncertain_locations (merge_location_results spacy_results regex_results)
     = uncertain_locations spacy_results)
  ∧ (∀ (spacy_results : locations) (r1 r2 : regex_locations),
       uncertain_locations (merge_location_results spacy_results r1)
       = uncertain_locations (merge_location_results spacy_results r2))
  ∧ (∀ (doc : Doc) (article : string),
       uncertain_locations (final_locations doc article)
       = uncertain_locations
           (categorize_locations_by_context doc
              (fst (collect_ents (ents doc) [] [])))).
Proof.
  split; [done|]. split; [done|].
  intros doc article. unfold final_locations.
  by destruct (collect_ents (ents doc) [] []).
Qed.

(** ** The regex location extractor *)

(** C5. On the scenario text the list pattern captures the enumeration up
    to the full stop, the separator pattern cuts it at the commas and at
    "and", and the upazilas of the result are Sirajganj, Tangail and
    Bogra, each once, and nothing else. *)
Theorem enumerated_upazila_list :
  let article :=
    "the affected upazilas -- Sirajganj, Tangail, and Bogra. Nearly 500 families are marooned." in
  let r := extract_locations_with_regex article in
  findall list_pattern article = ["Sirajganj, Tangail, and Bogra"]
  ∧ split separator "Sirajganj, Tangail, and Bogra"
    = ["Sirajganj"; "Tangail"; "Bogra"]
  ∧ findall upazila_pattern article = []
  ∧ (∀ name : string,
       name ∈ rx_upazilas r ↔ name ∈ ["Sirajganj"; "Tangail"; "Bogra"])
  ∧ NoDup (rx_upazilas r)
  ∧ rx_districts r = [].
Proof.
  intros article r.
  split; [vm_compute; reflexivity|].
  split; [vm_compute; reflexivity|].
  split; [vm_compute; reflexivity|].
  split; [|split; [apply list_set_NoDup | vm_compute; reflexivity]].
  intros name. subst r. simpl. rewrite list_set_elem.
  replace (upazila_names article) with ["Sirajganj"; "Tangail"; "Bogra"];
    [done | vm_compute; reflexivity].
Qed.

(** ** The numeric fact extractor *)

(** C6, as the code has it.  On the scenario text the deaths are 12 (the
    number before "people died") and 40 (the first number after "died").
    No part of the lower-cased text is an instance of the injured
    pattern, which wants the keyword right after the number and an
    optional "people" or "persons": "40 were injured" is none.  So the
    injured list is its sentinel. *)
Theorem deaths_scenario :
  let article := "At least 12 people died and 40 were injured" in
  let r := extract_categorized_numbers article in
  "12" ∈ deaths r
  ∧ (∀ x : string, x ∈ deaths r ↔ x ∈ ["12"; "40"])
  ∧ ¬ occurs injured_pattern (Str.lower article)
  ∧ injured r = ["not mentioned"].
Proof.
  intros article r.
  assert (Hd : ∀ x : string, x ∈ deaths r ↔ x ∈ ["12"; "40"]).
  { intros x. subst r. unfold extract_categorized_numbers.
    replace (death_matches article) with ["12"; "40"]
      by (vm_compute; reflexivity).
    simpl. by rewrite list_set_elem. }
  split; [apply Hd; left|]. split; [exact Hd|]. split.
  - apply findall_nil; vm_compute; reflexivity.
  - vm_compute. reflexivity.
Qed.

(** C6 as stated fails: "40" is not in the injured list. *)
Lemma injured_scenario_misses_40 :
  let r := extract_categorized_numbers
             "At least 12 people died and 40 were injured" in
  ¬ ("12" ∈ deaths r ∧ "40" ∈ injured r).
Proof.
  intros r [_ H]. subst r.
  replace (injured (extract_categorized_numbers
                      "At least 12 people died and 40 were injured"))
    with ["not mentioned"] in H by (vm_compute; reflexivity).
  apply list_elem_of_singleton in H. discriminate.
Qed.

(** C7, as the code has it.  On the scenario text no part of the
    lower-cased text is an instance of either affected pattern: "have
    been" stands between "people" and "affected", and no number follows
    "affected".  The affected list is its sentinel. *)
Theorem affected_scenario :
  let article := "Nearly 2.5 million people have been affected" in
  ¬ occurs affected_pattern (Str.lower article)
  ∧ ¬ occurs affected_pattern2 (Str.lower article)
  ∧ affected_matches article = []
  ∧ affected (extract_categorized_numbers article) = ["not mentioned"].
Proof.
  intros article.
  split; [apply findall_nil; vm_compute; reflexivity|].
  split; [apply findall_nil; vm_compute; reflexivity|].
  split; vm_compute; reflexivity.
Qed.

(** C7 as stated fails: "2.5" is not in the affected list. *)
Lemma affected_scenario_misses_2_5 :
  "2.5" ∉ affected (extract_categorized_numbers
                      "Nearly 2.5 million people have been affected").
Proof.
  replace (affected (extract_categorized_numbers
                       "Nearly 2.5 million people have been affected"))
    with ["not mentioned"] by (vm_compute; reflexivity).
  intros H. apply list_elem_of_singleton in H. discriminate.
Qed.

Lemma category_result_intro (matches : list string) (sentinel : string) :
  category_result matches sentinel
    (if Str.truthy matches then Str.list_set matches else [sentinel]).
Proof.
  destruct matches as [|m ms]; simpl; [done|].
  split; [by apply list_set_nonempty|].
  split; [apply list_set_NoDup | intros x; apply list_set_elem].
Qed.

(** C8. For every text each of the three lists of the result is
    non-empty: it is the sentinel of its category when the patterns of
    the category matched nothing, and the matched values otherwise. *)
Theorem numbers_never_empty (article : string) :
  let r := extract_categorized_numbers article in
  category_result (death_matches article) "0 or not mentioned" (deaths r)
  ∧ category_result (injured_matches article) "not mentioned" (injured r)
  ∧ category_result (affected_matches article) "not mentioned" (affected r).
Proof. repeat split; apply category_result_intro. Qed.

(** ** The event date resolver *)

(** The first report of [findall] for a pattern with a group is group 1
    of the leftmost match. *)
Lemma scan_head (r : regex) (chars : list ascii) :
  head (flat_map (report true) (scan r O chars))
  = (λ m, String.string_of_list_ascii (default [] m.2)) <$> search r chars.
Proof.
  induction chars as [|c chars IH]; cbn [scan search].
  - by destruct (match_at r []) as [[s' g]|].
  - destruct (match_at r (c :: chars)) as [[s' g]|]; [done|]. exact IH.
Qed.

Lemma findall_head (r : regex) (article : string) :
  has_group r = true →
  head (findall r article)
  = (λ m, String.string_of_list_ascii (default [] m.2))
      <$> search r (String.list_ascii_of_string article).
Proof. intros Hg. unfold findall. rewrite Hg. apply scan_head. Qed.

(** C9. The resolver returns the date captured by the leftmost match of
    the contextual pattern in the text when there is one; else the first
    recognizer date followed by " (estimated)" when there is one; else
    "not clearly mentioned". *)
Theorem event_date_resolution (dates : list string) (article : string) :
  extract_event_date dates article =
  match search event_date_pattern (String.list_ascii_of_string article) with
  | Some (_, found) => String.string_of_list_ascii (default [] found)
  | None =>
      match dates with
      | first :: _ => first +:+ " (estimated)"
      | [] => "not clearly mentioned"
      end
  end.
Proof.
  pose proof (findall_head event_date_pattern article eq_refl) as Hhead.
  unfold extract_event_date.
  destruct (findall event_date_pattern article) as [|m ms];
    destruct (search event_date_pattern _) as [[rest found]|];
    simpl in Hhead; try discriminate; [done|].
  by injection Hhead as ->.
Qed.

Example event_date_contextual :
  extract_event_date ["Monday"; "August 23"]
    "Floods began on August 21, 2024 and worsened since August 23"
  = "August 21, 2024".
Proof. vm_compute. reflexivity. Qed.

Example event_date_estimated :
  extract_event_date ["last week"; "Friday"] "Rivers rose sharply last week"
  = "last week (estimated)".
Proof. vm_compute. reflexivity. Qed.

Example event_date_absent :
  extract_event_date [] "Rivers rose sharply" = "not clearly mentioned".
Proof. vm_compute. reflexivity. Qed.

(** ** The uncertain list through the pipeline *)

Lemma collect_ents_locs (es : list Span) (locs dates : list string) :
  (collect_ents es locs dates).1
  = locs ++ (text <$> filter (λ ent, label_ ent = "GPE") es).
Proof.
  revert locs dates. induction es as [|ent es IH]; intros locs dates.
  { simpl. by rewrite app_nil_r. }
  cbn [collect_ents]. rewrite filter_cons.
  destruct (String.eqb_spec (label_ ent) "GPE") as [Heq|Hne].
  - rewrite IH, decide_True by done. by rewrite <- app_assoc.
  - rewrite decide_False by done.
    destruct (String.eqb (label_ ent) "DATE"); apply IH.
Qed.

(** C10. The uncertain list of the final result is not deduplicated.  In
    the example document [Dhaka] is recognized twice, the window of its
    first span has no administrative keyword, and the final uncertain
    list holds [Dhaka] twice.  In general the final districts and
    upazilas hold each name once, while the uncertain list holds one
    entry per [GPE] span whose name is uncertain. *)
Theorem uncertain_keeps_duplicates :
  (∃ e1 e2 : Span,
     ents dhaka_doc = [e1; e2]
     ∧ text e1 = "Dhaka" ∧ text e2 = "Dhaka"
     ∧ label_ e1 = "GPE" ∧ label_ e2 = "GPE"
     ∧ first_gpe dhaka_doc "Dhaka" = Some e1
     ∧ Str.any_in upazila_keywords (context_of dhaka_doc e1) = false
     ∧ Str.any_in district_keywords (context_of dhaka_doc e1) = false
     ∧ uncertain_locations (final_locations dhaka_doc dhaka_text)
       = ["Dhaka"; "Dhaka"])
  ∧ (∀ (doc : Doc) (article : string),
       let final := final_locations doc article in
       NoDup (districts final) ∧ NoDup (upazilas final)
       ∧ uncertain_locations final
         = filter (λ loc, tier_of doc loc = Uncertain)
             (text <$> filter (λ ent, label_ ent = "GPE") (ents doc))).
Proof.
  split.
  - exists (gpe "Dhaka" 0), (gpe "Dhaka" 7).
    repeat split; vm_compute; reflexivity.
  - intros doc article final. subst final. unfold final_locations.
    pose proof (collect_ents_locs (ents doc) [] []) as Hlocs.
    destruct (collect_ents (ents doc) [] []) as [locs dates].
    simpl in Hlocs. subst locs.
    split; [apply list_set_NoDup|]. split; [apply list_set_NoDup|].
    simpl. apply categorize_by_tier.
Qed.

(** * Further properties *)

(** ** Strings *)

Lemma chars_app (x y : string) : chars (x +:+ y) = chars x ++ chars y.
Proof. induction x as [|c x IH]; simpl; [done|]. by rewrite IH. Qed.

Lemma chars_inj (x y : string) : chars x = chars y → x = y.
Proof.
  intros H. rewrite <- (String.string_of_list_ascii_of_string x),
    <- (String.string_of_list_ascii_of_string y). unfold chars in H.
  by rewrite H.
Qed.

Lemma chars_of_list (w : list ascii) :
  chars (String.string_of_list_ascii w) = w.
Proof. apply String.list_ascii_of_string_of_list_ascii. Qed.

Lemma lower_char_idem (c : ascii) :
  Str.lower_char (Str.lower_char c) = Str.lower_char c.
Proof. by destruct c as [[] [] [] [] [] [] [] []]. Qed.

Lemma lower_idem (x : string) : Str.lower (Str.lower x) = Str.lower x.
Proof.
  induction x as [|c x IH]; simpl; [done|]. by rewrite lower_char_idem, IH.
Qed.

Lemma lower_app (x y : string) :
  Str.lower (x +:+ y) = Str.lower x +:+ Str.lower y.
Proof. induction x as [|c x IH]; simpl; [done|]. by rewrite IH. Qed.

Lemma starts_with_spec (p s : list ascii) :
  Str.starts_with p s = true ↔ ∃ b, s = p ++ b.
Proof.
  revert s. induction p as [|a p IH]; intros s; simpl.
  - split; [eauto|done].
  - destruct s as [|c s].
    + split; [done|]. by intros [b Hb].
    + rewrite andb_true_iff, IH. split.
      * intros [Hac [b ->]]. apply Ascii.eqb_eq in Hac as ->. eauto.
      * intros [b [= -> ->]]. split; [apply Ascii.eqb_refl|eauto].
Qed.

(** [sub in s] holds exactly when [sub] is a contiguous part of [s]. *)
Lemma contains_l_spec (p s : list ascii) :
  Str.contains_l p s = true ↔ part_of p s.
Proof.
  unfold part_of. induction s as [|c s IH]; cbn [Str.contains_l];
    rewrite orb_true_iff, starts_with_spec.
  - split.
    + intros [[b Hb]|]; [|done]. by exists [], b.
    + intros (a & b & Hab). left.
      symmetry in Hab. apply app_eq_nil in Hab as [-> Hab].
      apply app_eq_nil in Hab as [-> ->]. by exists [].
  - rewrite IH. split.
    + intros [[b Hb]|(a & b & ->)]; [by exists [], b|by exists (c :: a), b].
    + intros (a & b & Hab). destruct a as [|a0 a].
      * left. eauto.
      * right. injection Hab as -> ->. eauto.
Qed.

Lemma contains_spec (sub x : string) :
  Str.contains sub x = true ↔ part_of (chars sub) (chars x).
Proof. apply contains_l_spec. Qed.

Lemma part_of_app (w s a b : list ascii) :
  part_of w s → part_of w (a ++ s ++ b).
Proof.
  intros (a' & b' & ->). exists (a ++ a'), (b' ++ b).
  by rewrite <- !app_assoc.
Qed.

Lemma part_of_prefix (p q s : list ascii) : part_of (p ++ q) s → part_of p s.
Proof.
  intros (a & b & ->). exists a, (q ++ b). by rewrite <- app_assoc.
Qed.

(** ** The disaster classifier *)

Lemma any_flood_keyword (L : string) :
  Str.truthy (List.filter (fun kw => Str.contains kw L) FLOOD_KEYWORDS)
  = Str.contains "flood" L || Str.contains "inundated" L
    || Str.contains "waterlogging" L.
Proof.
  assert (Hsub : ∀ kw rest : string,
             Str.contains "flood" L = false →
             kw = "flood" +:+ rest → Str.contains kw L = false).
  { intros kw rest Hno ->.
    destruct (Str.contains ("flood" +:+ rest) L) eqn:H; [|done].
    apply contains_spec in H. rewrite chars_app in H.
    apply part_of_prefix, contains_spec in H. congruence. }
  cbn [FLOOD_KEYWORDS List.filter].
  destruct (Str.contains "flood" L) eqn:Hflood; [done|].
  rewrite (Hsub "flooding" "ing"), (Hsub "floodwater" "water"),
    (Hsub "flooded" "ed") by done.
  by destruct (Str.contains "inundated" L), (Str.contains "waterlogging" L).
Qed.

(** X1. The classifier answers "flood" exactly when the lower-cased text
    contains "flood", "inundated" or "waterlogging", and "unknown"
    otherwise: the keywords "flooding", "floodwater" and "flooded" add
    nothing, each contains "flood". *)
Theorem disaster_type_three_keywords (article : string) :
  extract_disaster_type article =
  if Str.contains "flood" (Str.lower article)
     || Str.contains "inundated" (Str.lower article)
     || Str.contains "waterlogging" (Str.lower article)
  then "flood" else "unknown".
Proof. unfold extract_disaster_type. by rewrite any_flood_keyword. Qed.

(** X2. A text that contains a text classified "flood" is classified
    "flood": nothing around a keyword, a negation for one, takes the
    answer back. *)
Theorem disaster_type_monotone (before article after : string) :
  extract_disaster_type article = "flood" →
  extract_disaster_type (before +:+ article +:+ after) = "flood".
Proof.
  rewrite !disaster_type_three_keywords, !lower_app.
  assert (Hmono : ∀ kw : string,
             Str.contains kw (Str.lower article) = true →
             Str.contains kw (Str.lower before +:+ Str.lower article
                              +:+ Str.lower after) = true).
  { intros kw H. apply contains_spec in H. apply contains_spec.
    rewrite !chars_app. by apply part_of_app. }
  destruct (Str.contains "flood" (Str.lower article)) eqn:H1.
  { intros _. by rewrite (Hmono "flood"). }
  destruct (Str.contains "inundated" (Str.lower article)) eqn:H2.
  { intros _. rewrite (Hmono "inundated") by done.
    by rewrite orb_true_r. }
  destruct (Str.contains "waterlogging" (Str.lower article)) eqn:H3.
  { intros _. rewrite (Hmono "waterlogging") by done.
    by rewrite orb_true_r. }
  done.
Qed.

Lemma disaster_type_monotone_witness :
  extract_disaster_type
    ("Officials said no " +:+ "Flooding" +:+ " was reported") = "flood".
Proof.
  apply (disaster_type_monotone "Officials said no " "Flooding"
           " was reported").
  vm_compute. reflexivity.
Defined.

(** ** What [findall] reports *)

Section Capture.

Context {A : Type}.
Variables (T : list ascii) (G : list regex).
Implicit Types (k : cont A) (body : matcher A).

Lemma threads_weaken sets (m : matcher A) :
  threads T G sets m → threads T G false m.
Proof.
  intros Hm s g k x Hs Hg Hx.
  destruct (Hm s g k x Hs Hg Hx) as (s' & g' & ? & ? & ? & ? & ?).
  exists s', g'. split_and!; by auto.
Qed.

Lemma rep_loop_threads body greedy lo hi fuel count :
  threads T G false body →
  threads T G false (λ s g k, rep_loop body greedy lo hi k fuel count s g).
Proof.
  intros Hbody. revert count.
  induction fuel as [|fuel IH]; intros count s g k x Hs Hg; cbn [rep_loop].
  { assert (Hstop : (if lo <=? count then k s g else None) = Some x →
              ∃ s' g', s' `suffix_of` T ∧ captured T G g'
                ∧ (is_Some g → is_Some g') ∧ (false = true → is_Some g')
                ∧ k s' g' = Some x).
    { destruct (lo <=? count); [|done]. intros Hx. exists s, g. split_and!; by auto. }
    destruct greedy; [done|].
    destruct (if lo <=? count then k s g else None) eqn:Hk; [|done].
    intros [= <-]. by apply Hstop. }
  assert (Hstop : (if lo <=? count then k s g else None) = Some x →
            ∃ s' g', s' `suffix_of` T ∧ captured T G g'
              ∧ (is_Some g → is_Some g') ∧ (false = true → is_Some g')
              ∧ k s' g' = Some x).
  { destruct (lo <=? count); [|done]. intros Hx. exists s, g. split_and!; by auto. }
  assert (Hmore :
            (if below hi count then
               body s g (λ s' g',
                 if length s' <? length s
                 then rep_loop body greedy lo hi k fuel (S count) s' g'
                 else None)
             else None) = Some x →
            ∃ s' g', s' `suffix_of` T ∧ captured T G g'
              ∧ (is_Some g → is_Some g') ∧ (false = true → is_Some g')
              ∧ k s' g' = Some x).
  { destruct (below hi count); [|done]. intros Hx.
    apply Hbody in Hx as (s1 & g1 & Hs1 & Hg1 & Hset & _ & Hx); [|done..].
    destruct (length s1 <? length s); [|done].
    apply IH in Hx as (s2 & g2 & ? & ? & ? & ? & ?); [|done..].
    exists s2, g2. split_and!; auto. }
  destruct greedy.
  - destruct (if below hi count then _ else None) eqn:Hm.
    + intros [= <-]. by apply Hmore.
    + exact Hstop.
  - destruct (if lo <=? count then k s g else None) eqn:Hk.
    + intros [= <-]. by apply Hstop.
    + exact Hmore.
Qed.

Lemma run_threads (r : regex) :
  (∀ rg, rg ∈ groups r → rg ∈ G) →
  threads T G (sets_group r) (run (A:=A) r).
Proof.
  induction r as [c|p| |r1 IH1 r2 IH2|r1 IH1 r2 IH2|greedy lo hi r IH|r IH];
    cbn [groups sets_group]; intros HG s g k x Hs Hg; cbn [run].
  - destruct s as [|a s]; [done|]. destruct (Ascii.eqb a c); [|done].
    intros Hx. exists s, g. apply suffix_cons_l in Hs. split_and!; by auto.
  - destruct s as [|a s]; [done|]. destruct (p a); [|done].
    intros Hx. exists s, g. apply suffix_cons_l in Hs. split_and!; by auto.
  - intros Hx. exists s, g. split_and!; by auto.
  - intros Hx.
    apply IH1 in Hx as (s1 & g1 & Hs1 & Hg1 & Hk1 & Hset1 & Hx);
      [|intros; apply HG, elem_of_app; by left|done..].
    apply IH2 in Hx as (s2 & g2 & Hs2 & Hg2 & Hk2 & Hset2 & Hx);
      [|intros; apply HG, elem_of_app; by right|done..].
    exists s2, g2. split_and!; auto.
    intros [H|H]%orb_true_iff; auto.
  - assert (H1 : ∀ rg, rg ∈ groups r1 → rg ∈ G)
      by (intros; apply HG, elem_of_app; by left).
    assert (H2 : ∀ rg, rg ∈ groups r2 → rg ∈ G)
      by (intros; apply HG, elem_of_app; by right).
    destruct (run r1 s g k) eqn:Hr1.
    + intros [= <-].
      apply IH1 in Hr1 as (s1 & g1 & ? & ? & ? & Hset & ?); [|done..].
      exists s1, g1. split_and!; auto.
      intros [? ?]%andb_true_iff. auto.
    + intros Hx.
      apply IH2 in Hx as (s1 & g1 & ? & ? & ? & Hset & ?); [|done..].
      exists s1, g1. split_and!; auto.
      intros [? ?]%andb_true_iff. auto.
  - apply (rep_loop_threads (run r) greedy lo hi (length s) 0); [|done..].
    eapply threads_weaken. by apply IH.
  - intros Hx. apply run_sound in Hx as (w & s' & g' & -> & Hw & Hx).
    rewrite length_app, Nat.add_sub, take_app_length in Hx.
    exists s', (Some w). split_and!; eauto.
    + by apply suffix_app_l in Hs.
    + intros w' [= <-]. split.
      * exists r. split; [|done]. apply HG. by left.
      * destruct Hs as [a ->]. by exists a, s'.
Qed.

End Capture.

Lemma match_at_captured (T : list ascii) (r : regex) (s s' : list ascii)
    (g : capture) :
  s `suffix_of` T →
  match_at r s = Some (s', g) →
  captured T (groups r) g ∧ (sets_group r = true → is_Some g).
Proof.
  intros Hs Hm.
  apply (run_threads T (groups r) r) in Hm
    as (s1 & g1 & _ & Hg & _ & Hset & [= -> ->]); done.
Qed.

Lemma scan_captured (T : list ascii) (r : regex) (s : list ascii)
    (skip : nat) whole g :
  s `suffix_of` T →
  Hit whole g ∈ scan r skip s →
  captured T (groups r) g ∧ (sets_group r = true → is_Some g).
Proof.
  revert skip. induction s as [|c s IH]; intros skip Hs; cbn [scan].
  - destruct skip; [|by intros ?%elem_of_nil].
    destruct (match_at r []) as [[s' g']|] eqn:Hm;
      [|by intros ?%elem_of_nil].
    intros [[= _ <-]|?%elem_of_nil]%elem_of_cons; [|done].
    by apply (match_at_captured T r [] s').
  - assert (Hs' : s `suffix_of` T) by (by apply suffix_cons_l in Hs).
    destruct skip as [|n]; [|by apply IH].
    destruct (match_at r (c :: s)) as [[s' g']|] eqn:Hm.
    + intros [[= _ <-]|Hin]%elem_of_cons.
      { by apply (match_at_captured T r (c :: s) s'). }
      destruct (length (c :: s) - length s').
      * apply elem_of_cons in Hin as [|Hin]; [done|]. by apply (IH 0).
      * by apply (IH n).
    + intros [|Hin]%elem_of_cons; [done|]. by apply (IH 0).
Qed.

(** A string reported by [findall] for a pattern that always goes
    through its group is an instance of the pattern under a group and a
    part of the text. *)
Lemma findall_captured (r : regex) (article x : string) :
  sets_group r = true →
  has_group r = true →
  x ∈ findall r article →
  ∃ rg, rg ∈ groups r ∧ lang rg (chars x)
        ∧ part_of (chars x) (chars article).
Proof.
  intros Hsets Hhas. unfold findall. rewrite Hhas.
  intros Hx. apply list_elem_of_In, in_flat_map in Hx as (p & Hp & Hx).
  apply list_elem_of_In in Hp. destruct p as [c|whole g]; [done|].
  simpl in Hx. destruct Hx as [<-|[]].
  apply (scan_captured (chars article)) in Hp as [Hg Hset]; [|done].
  destruct (Hset Hsets) as [w ->]. simpl. rewrite chars_of_list.
  destruct (Hg w eq_refl) as [(rg & Hrg & Hw) Hpart]. eauto.
Qed.

(** ** The numeric fact extractor, entry by entry *)

Lemma lang_rep_cls greedy lo hi (p : ascii → bool) (w : list ascii) :
  lang (Rep greedy lo hi (Cls p)) w →
  Forall (λ c, p c = true) w ∧ lo ≤ length w.
Proof.
  intros (ws & -> & Hws & Hlo & _).
  assert (H : Forall (λ c, p c = true) (concat ws)
              ∧ length (concat ws) = length ws).
  { clear Hlo. induction Hws as [|w ws (c & Hc & ->) Hws [IH1 IH2]].
    - by split.
    - simpl. split; [by constructor|by rewrite IH2]. }
  destruct H as [Hall Hlen]. split; [done|lia].
Qed.

Lemma lang_digits (w : list ascii) :
  lang (plus digit) w →
  w ≠ [] ∧ Forall (λ c, Str.is_digit c = true) w.
Proof.
  intros [Hall Hlen]%lang_rep_cls. split; [|done].
  intros ->. simpl in Hlen. lia.
Qed.

Lemma chars_nonempty (x : string) : chars x ≠ [] → x ≠ "".
Proof. by intros H ->. Qed.

Lemma entry_cases (matches : list string) (sentinel x : string) :
  x ∈ (if Str.truthy matches then Str.list_set matches else [sentinel]) →
  (matches = [] ∧ x = sentinel) ∨ x ∈ matches.
Proof.
  destruct matches as [|m ms]; simpl.
  - intros ->%list_elem_of_singleton. by left.
  - rewrite list_set_elem. by right.
Qed.

Lemma count_matches_digits (r : regex) (L x : string) :
  sets_group r = true → has_group r = true → groups r = [plus digit] →
  x ∈ findall r L → digits x ∧ part_of (chars x) (chars L).
Proof.
  intros Hsets Hhas Hgroups Hx.
  apply findall_captured in Hx as (rg & Hrg & Hw & Hpart); [|done..].
  rewrite Hgroups in Hrg. apply list_elem_of_singleton in Hrg as ->.
  apply lang_digits in Hw as [Hne Hall].
  split; [|done]. split; [by apply chars_nonempty|done].
Qed.

(** X3. Every entry of the deaths list and of the injured list is the
    sentinel of its list, when no pattern of the list matched, or else a
    non-empty string of decimal digits that is a part of the lower-cased
    text. *)
Theorem counts_are_digit_strings (article x : string) :
  let r := extract_categorized_numbers article in
  (x ∈ deaths r →
   (death_matches article = [] ∧ x = "0 or not mentioned")
   ∨ (digits x ∧ part_of (chars x) (chars (Str.lower article))))
  ∧ (x ∈ injured r →
     (injured_matches article = [] ∧ x = "not mentioned")
     ∨ (digits x ∧ part_of (chars x) (chars (Str.lower article)))).
Proof.
  intros r. subst r. simpl. split; intros [H|H]%entry_cases; auto; right.
  - apply elem_of_app in H as [H|H];
      by apply count_matches_digits in H.
  - by apply count_matches_digits in H.
Qed.

Lemma counts_are_digit_strings_witness :
  digits "12"
  ∧ part_of (chars "12")
      (chars (Str.lower "At least 12 people died and 40 were injured")).
Proof.
  destruct (proj1 (counts_are_digit_strings
                     "At least 12 people died and 40 were injured" "12"))
    as [[H _]|H].
  - vm_compute. left.
  - discriminate.
  - exact H.
Defined.

Lemma ends_digit_app (a b : list ascii) :
  ends_digit b → ends_digit (a ++ b).
Proof. intros (b' & c & -> & Hc). exists (a ++ b'), c. by rewrite app_assoc. Qed.

Lemma digit_run (w : list ascii) :
  lang (plus digit) w → starts_digit w ∧ ends_digit w ∧ Forall numeral_char w.
Proof.
  intros [Hne Hall]%lang_digits. split_and!.
  - destruct w as [|c w]; [done|]. apply Forall_cons in Hall as [Hc _].
    by exists c, w.
  - destruct w as [|c w _] using rev_ind; [done|].
    apply Forall_app in Hall as [_ [Hc _]%Forall_cons]. by exists w, c.
  - eapply Forall_impl; [exact Hall|]. intros c Hc. by left.
Qed.

Lemma numeral_tail_app (a b : list ascii) :
  numeral_tail a → numeral_tail b → numeral_tail (a ++ b).
Proof.
  intros [Ha Hfa] [Hb Hfb]. split; [|by apply Forall_app].
  destruct Hb as [->|Hb].
  - by rewrite app_nil_r.
  - right. by apply ends_digit_app.
Qed.

Lemma sep_run (c : ascii) (w : list ascii) :
  numeral_char c → lang (Cat (Chr c) (plus digit)) w → numeral_tail w.
Proof.
  intros Hc (w1 & w2 & -> & -> & (_ & He & Hall)%digit_run). split.
  - right. by apply (ends_digit_app [c]).
  - by constructor.
Qed.

Lemma sep_runs (c : ascii) (ws : list (list ascii)) :
  numeral_char c → Forall (lang (Cat (Chr c) (plus digit))) ws → numeral_tail (concat ws).
Proof.
  intros Hc. induction 1 as [|w ws Hw _ IH]; simpl.
  - split; [by left|constructor].
  - apply numeral_tail_app; [by apply (sep_run c)|done].
Qed.

Lemma lang_number (w : list ascii) :
  lang number w → starts_digit w ∧ ends_digit w ∧ Forall numeral_char w.
Proof.
  intros (w1 & w2 & -> & (Hs & He & Hall)%digit_run
          & w3 & w4 & -> & (ws & -> & Hws & _) & (ws' & -> & Hws' & _)).
  assert (Htail : numeral_tail (concat ws ++ concat ws')).
  { apply numeral_tail_app.
    - apply (sep_runs ","); [right; by left|done].
    - apply (sep_runs "."); [right; by right|done]. }
  destruct Htail as [Htail Hfall]. split_and!.
  - destruct Hs as (c & w' & -> & Hc). by exists c, (w' ++ concat ws ++ concat ws').
  - destruct Htail as [->|Htail]; [by rewrite app_nil_r|].
    by apply ends_digit_app.
  - by apply Forall_app.
Qed.

Lemma affected_matches_numeral (r : regex) (L x : string) :
  sets_group r = true → has_group r = true → groups r = [number] →
  x ∈ findall r L → numeral x ∧ part_of (chars x) (chars L).
Proof.
  intros Hsets Hhas Hgroups Hx.
  apply findall_captured in Hx as (rg & Hrg & Hw & Hpart); [|done..].
  rewrite Hgroups in Hrg. apply list_elem_of_singleton in Hrg as ->.
  by apply lang_number in Hw.
Qed.

(** X4. Every entry of the affected list is its sentinel, when neither
    affected pattern matched, or else a string of digits, commas and full
    stops that begins and ends with a digit and is a part of the
    lower-cased text; a unit word such as "million" is never in it. *)
Theorem affected_are_numerals (article x : string) :
  x ∈ affected (extract_categorized_numbers article) →
  (affected_matches article = [] ∧ x = "not mentioned")
  ∨ (numeral x ∧ part_of (chars x) (chars (Str.lower article))).
Proof.
  simpl. intros [H|H]%entry_cases; auto. right.
  apply elem_of_app in H as [H|H]; by apply affected_matches_numeral in H.
Qed.

Lemma affected_are_numerals_witness :
  ("1,200.5" = "not mentioned" → False)
  ∧ numeral "1,200.5"
  ∧ part_of (chars "1,200.5")
      (chars (Str.lower "About 1,200.5 thousand displaced")).
Proof.
  split; [discriminate|].
  destruct (affected_are_numerals "About 1,200.5 thousand displaced"
              "1,200.5") as [[_ H]|H].
  - vm_compute. left.
  - discriminate.
  - exact H.
Defined.

Lemma sentinel_or_matches (matches : list string) (sentinel : string) :
  (sentinel ∈ matches → False) →
  (if Str.truthy matches then Str.list_set matches else [sentinel])
  = [sentinel] ↔ matches = [].
Proof.
  intros Hnot. split; [|by intros ->].
  destruct matches as [|m ms]; [done|]. simpl. intros Heq.
  destruct Hnot. apply list_set_elem. rewrite Heq. left.
Qed.

Lemma app_nil_iff (xs ys : list string) : xs ++ ys = [] ↔ xs = [] ∧ ys = [].
Proof.
  split; [apply app_eq_nil|]. by intros [-> ->].
Qed.

(** X5. A list of the result is its sentinel exactly when no part of the
    lower-cased text is an instance of a pattern of its category: a
    matched value is never mistaken for the sentinel, "0 or not
    mentioned" included. *)
Theorem sentinel_means_no_instance (article : string) :
  let r := extract_categorized_numbers article in
  let L := Str.lower article in
  (deaths r = ["0 or not mentioned"]
   ↔ ¬ occurs death_pattern L ∧ ¬ occurs death_pattern2 L)
  ∧ (injured r = ["not mentioned"] ↔ ¬ occurs injured_pattern L)
  ∧ (affected r = ["not mentioned"]
     ↔ ¬ occurs affected_pattern L ∧ ¬ occurs affected_pattern2 L).
Proof.
  intros r L. subst r. simpl. split_and!.
  - rewrite sentinel_or_matches.
    + unfold death_matches. rewrite app_nil_iff. fold L.
      by rewrite !findall_nil.
    + intros [H|H]%elem_of_app;
        apply count_matches_digits in H as [[_ H] _]; try done;
        apply Forall_cons in H as [_ H]; apply Forall_cons in H as [H _];
        discriminate.
  - rewrite sentinel_or_matches.
    + unfold injured_matches. fold L. by rewrite findall_nil.
    + intros H. apply count_matches_digits in H as [[_ H] _]; try done.
      apply Forall_cons in H as [H _]. discriminate.
  - rewrite sentinel_or_matches.
    + unfold affected_matches. rewrite app_nil_iff. fold L.
      by rewrite !findall_nil.
    + intros [H|H]%elem_of_app;
        apply affected_matches_numeral in H as [[H _] _]; try done;
        destruct H as (c & w' & [= <- _] & H); discriminate.
Qed.

(** ** [str.strip] *)

Lemma lstrip_suffix (w : list ascii) : Str.lstrip w `suffix_of` w.
Proof.
  induction w as [|c w IH]; simpl; [done|].
  destruct (Str.is_space c); [by apply suffix_cons_r|done].
Qed.

Lemma lstrip_head (w : list ascii) (c : ascii) :
  head (Str.lstrip w) = Some c → Str.is_space c = false.
Proof.
  induction w as [|a w IH]; simpl; [done|].
  destruct (Str.is_space a) eqn:Ha; [done|]. by intros [= <-].
Qed.

Lemma chars_strip (x : string) :
  chars (Str.strip x) = rev (Str.lstrip (rev (Str.lstrip (chars x)))).
Proof. unfold Str.strip. apply chars_of_list. Qed.

Lemma last_rev (w : list ascii) : last (rev w) = head w.
Proof. destruct w as [|c w]; [done|]. simpl. by rewrite last_snoc. Qed.

Lemma head_rev (w : list ascii) : head (rev w) = last w.
Proof. by rewrite <- last_rev, rev_involutive. Qed.

(** A stripped string neither begins nor ends with white space, and
    keeps what held of every character. *)
Lemma strip_ends (x : string) :
  (∀ c, head (chars (Str.strip x)) = Some c → Str.is_space c = false)
  ∧ (∀ c, last (chars (Str.strip x)) = Some c → Str.is_space c = false).
Proof.
  rewrite chars_strip. set (y := Str.lstrip (chars x)).
  destruct (lstrip_suffix (rev y)) as [k Hk].
  set (z := Str.lstrip (rev y)) in *.
  apply (f_equal (@rev ascii)) in Hk.
  rewrite rev_involutive, rev_app_distr in Hk.
  split; intros c.
  - destruct (rev z) as [|a z'] eqn:Hz; [done|]. simpl. intros [= ->].
    apply (lstrip_head (chars x)). fold y. by rewrite Hk.
  - rewrite last_rev. apply lstrip_head.
Qed.

Lemma strip_Forall (P : ascii → Prop) (x : string) :
  Forall P (chars x) → Forall P (chars (Str.strip x)).
Proof.
  rewrite chars_strip. intros H.
  assert (Hsuf : ∀ w, Forall P w → Forall P (Str.lstrip w)).
  { intros w Hw. destruct (lstrip_suffix w) as [k Hk].
    rewrite Hk in Hw. by apply Forall_app in Hw as [_ ?]. }
  apply Forall_rev, Hsuf, Forall_rev, Hsuf, H.
Qed.

(** ** [re.split] *)

Lemma scan_gap (r : regex) (s : list ascii) (skip : nat) (c : ascii) :
  nullable r = false →
  Gap c ∈ scan r skip s →
  c ∈ s ∧ ∃ t, match_at r (c :: t) = None.
Proof.
  intros Hnull. revert skip.
  induction s as [|a s IH]; intros skip; cbn [scan].
  - destruct skip; [|by intros ?%elem_of_nil].
    destruct (match_at r []) as [[s' g']|];
      [|by intros ?%elem_of_nil].
    by intros [|?%elem_of_nil]%elem_of_cons.
  - assert (Hstep : ∀ n, Gap c ∈ scan r n s →
               c ∈ a :: s ∧ ∃ t, match_at r (c :: t) = None).
    { intros n [Hin Hno]%IH. split; [by right|done]. }
    destruct skip as [|n]; [|apply Hstep].
    destruct (match_at r (a :: s)) as [[s' g']|] eqn:Hm.
    + apply match_at_consumes in Hm; [|done].
      intros [|Hin]%elem_of_cons; [done|].
      destruct (length (a :: s) - length s') eqn:Hlen; [lia|].
      by apply (Hstep n).
    + intros [[= ->]|Hin]%elem_of_cons; [|by apply (Hstep 0)].
      split; [by left|eauto].
Qed.

Lemma split_pieces_Forall (P : ascii → Prop) (ps : list piece)
    (cur : list ascii) (x : string) :
  (∀ c, Gap c ∈ ps → P c) →
  Forall P cur →
  x ∈ split_pieces ps cur → Forall P (chars x).
Proof.
  revert cur. induction ps as [|p ps IH]; intros cur Hgap Hcur; simpl.
  - intros ->%list_elem_of_singleton. rewrite chars_of_list.
    by apply Forall_rev.
  - assert (Hgap' : ∀ c, Gap c ∈ ps → P c)
      by (intros; apply Hgap; by right).
    destruct p as [c|whole g].
    + apply IH; [done|]. constructor; [|done]. apply Hgap. by left.
    + intros [->|Hx]%elem_of_cons.
      * rewrite chars_of_list. by apply Forall_rev.
      * by apply (IH []).
Qed.

(** A piece of [re.split] is made of characters of the text at which the
    pattern does not match. *)
Lemma split_Forall (r : regex) (m x : string) :
  nullable r = false →
  x ∈ split r m →
  Forall (λ c, c ∈ chars m ∧ ∃ t, match_at r (c :: t) = None) (chars x).
Proof.
  intros Hnull. unfold split. apply split_pieces_Forall; [|done].
  intros c. by apply scan_gap.
Qed.

Lemma separator_at_comma (t : list ascii) :
  match_at separator (","%char :: t) ≠ None.
Proof.
  assert (H : is_Some (match_at separator ([","%char] ++ t))).
  { apply match_at_complete; [done|].
    exists [","%char], []. split_and!; [done..|].
    exists [], []. split_and!; [done| |].
    - exists []. by split_and!; [|constructor|simpl; lia|].
    - exists []. split_and!; [done|constructor|simpl; lia|simpl; lia]. }
  destruct H as [y Hy]. simpl in Hy. congruence.
Qed.

(** ** The names of the regex location extractor *)

Lemma letter_facts (c : ascii) :
  Str.is_upper_az c = true ∨ Str.is_lower_az c = true →
  Str.is_space c = false ∧ c ≠ ","%char ∧ c ≠ "."%char.
Proof.
  destruct c as [[] [] [] [] [] [] [] []]; vm_compute;
    intros [?|?]; by split_and!.
Qed.

Lemma space_facts (c : ascii) :
  Str.is_space c = true → c ≠ ","%char ∧ c ≠ "."%char.
Proof. by destruct c as [[] [] [] [] [] [] [] []]; vm_compute. Qed.

Lemma lang_place_name (w : list ascii) :
  lang place_name w → clean_name (String.string_of_list_ascii w).
Proof.
  intros (w1 & w2 & -> & (c & Hc & ->)
          & w3 & w4 & -> & [Hlow Hlen]%lang_rep_cls
          & ws & -> & Hws & _ & Hhi).
  assert (Hrest : concat ws = [] ∨
                  (∃ z a, concat ws = z ++ [a] ∧ Str.is_lower_az a = true)
                  ∧ Forall (λ c, c ≠ ","%char ∧ c ≠ "."%char) (concat ws)).
  { destruct ws as [|v ws]; [by left|]. right.
    destruct ws; [|simpl in Hhi; lia].
    apply Forall_cons in Hws as [Hv _]. simpl. rewrite app_nil_r.
    destruct Hv as (v1 & v2 & -> & [Hsp _]%lang_rep_cls
                    & v3 & v4 & -> & (b & Hb & ->)
                    & [Hlo Hlo1]%lang_rep_cls).
    split.
    - destruct v4 as [|a v4 _] using rev_ind; [simpl in Hlo1; lia|].
      apply Forall_app in Hlo as [_ [Ha _]%Forall_cons].
      exists (v1 ++ [b] ++ v4), a. by rewrite <- !app_assoc.
    - apply Forall_app. split.
      + eapply Forall_impl; [exact Hsp|]. apply space_facts.
      + constructor; [by apply letter_facts; left|].
        eapply Forall_impl; [exact Hlo|].
        intros a Ha. by apply letter_facts; right. }
  unfold clean_name. rewrite chars_of_list. split_and!.
  - apply chars_nonempty. by rewrite chars_of_list.
  - simpl. intros ? [= <-]. by apply letter_facts; left.
  - destruct Hrest as [->|[(z & a & -> & Ha) _]].
    + rewrite app_nil_r.
      destruct w3 as [|a w3 _] using rev_ind; [simpl in Hlen; lia|].
      apply Forall_app in Hlow as [_ [Ha _]%Forall_cons].
      change ([c] ++ w3 ++ [a]) with ((c :: w3) ++ [a]).
      rewrite last_snoc. intros ? [= <-]. by apply letter_facts; right.
    + replace ([c] ++ w3 ++ z ++ [a]) with ((c :: w3 ++ z) ++ [a])
        by (simpl; by rewrite <- app_assoc).
      rewrite last_snoc. intros ? [= <-]. by apply letter_facts; right.
  - simpl. constructor; [by apply letter_facts; left|].
    apply Forall_app. split.
    + eapply Forall_impl; [exact Hlow|].
      intros a Ha. by apply letter_facts; right.
    + destruct Hrest as [->|[_ H]]; [constructor|done].
Qed.

Lemma lang_list_capture (w : list ascii) :
  lang (seq [upper_az; plus_lazy not_period]) w →
  Forall (λ c, c ≠ "."%char) w.
Proof.
  intros (w1 & w2 & -> & (c & Hc & ->) & [Hall _]%lang_rep_cls).
  constructor.
  - intros ->. discriminate.
  - eapply Forall_impl; [exact Hall|]. simpl. intros a Ha ->. discriminate.
Qed.

Lemma elem_of_stripped (places : list string) (x : string) :
  x ∈ stripped places ↔ ∃ p, p ∈ places ∧ Str.strip p ≠ "" ∧ x = Str.strip p.
Proof.
  unfold stripped. rewrite list_elem_of_fmap. split.
  - intros (p & -> & [Hne Hin]%list_elem_of_filter). eauto.
  - intros (p & Hin & Hne & ->). exists p. split; [done|].
    by apply list_elem_of_filter.
Qed.

Lemma elem_of_extend_with_places (xs matches : list string) (x : string) :
  x ∈ extend_with_places xs matches
  ↔ x ∈ xs ∨ ∃ m, m ∈ matches ∧ x ∈ stripped (split separator m).
Proof.
  unfold extend_with_places. revert xs.
  induction matches as [|m ms IH]; intros xs; simpl.
  - split; [by left|]. intros [?|(m & ?%elem_of_nil & _)]; done.
  - rewrite IH, elem_of_app. split.
    + intros [[?|?]|(m' & ? & ?)]; [by left|right..].
      * exists m. split; [by left|done].
      * exists m'. split; [by right|done].
    + intros [?|(m' & [->|?]%elem_of_cons & ?)].
      * left. by left.
      * left. by right.
      * right. eauto.
Qed.

Lemma list_name_clean (L : string) (r : regex) (m x : string) :
  sets_group r = true → has_group r = true →
  groups r = [seq [upper_az; plus_lazy not_period]] →
  m ∈ findall r L →
  x ∈ stripped (split separator m) →
  clean_name x.
Proof.
  intros Hsets Hhas Hgroups Hm (p & Hp & Hne & ->)%elem_of_stripped.
  apply findall_captured in Hm as (rg & Hrg & Hw & _); [|done..].
  rewrite Hgroups in Hrg. apply list_elem_of_singleton in Hrg as ->.
  apply lang_list_capture in Hw.
  apply split_Forall in Hp; [|done].
  destruct (strip_ends p) as [Hhead Hlast].
  unfold clean_name. split_and!; [done..|].
  apply strip_Forall. eapply Forall_impl; [exact Hp|].
  intros c [Hc [t Ht]]. split.
  - intros ->. by apply (separator_at_comma t).
  - rewrite Forall_forall in Hw. by apply Hw.
Qed.

Lemma single_name_clean (L : string) (r : regex) (x : string) :
  sets_group r = true → has_group r = true → groups r = [place_name] →
  x ∈ findall r L → clean_name x.
Proof.
  intros Hsets Hhas Hgroups Hx.
  apply findall_captured in Hx as (rg & Hrg & Hw & _); [|done..].
  rewrite Hgroups in Hrg. apply list_elem_of_singleton in Hrg as ->.
  apply lang_place_name in Hw.
  by rewrite String.string_of_list_ascii_of_string in Hw.
Qed.

(** X6. Every name the regex extractor returns, in either list, is
    non-empty, has no comma and no full stop, and neither begins nor ends
    with white space. *)
Theorem regex_names_are_clean (article name : string) :
  let r := extract_locations_with_regex article in
  name ∈ rx_districts r ∨ name ∈ rx_upazilas r →
  clean_name name.
Proof.
  simpl. rewrite !list_set_elem.
  unfold district_names, upazila_names.
  rewrite !elem_of_extend_with_places.
  intros [[H|(m & Hm & H)]|[H|(m & Hm & H)]].
  - by apply (single_name_clean article district_pattern).
  - by apply (list_name_clean article district_list_pattern m).
  - by apply (single_name_clean article upazila_pattern).
  - by apply (list_name_clean article list_pattern m).
Qed.

Lemma regex_names_are_clean_witness : clean_name "Cox Bazar".
Proof.
  apply (regex_names_are_clean
           "Heavy rain in Cox Bazar district, districts: Feni , and Bogra."
           "Cox Bazar").
  left. vm_compute. left.
Defined.

(** ** The regex location extractor needs capital letters *)

Lemma capitalized_cat_l (r1 r2 : regex) :
  capitalized r1 → capitalized (Cat r1 r2).
Proof.
  intros H w (w1 & w2 & -> & H1 & _). apply Exists_app. left. by apply H.
Qed.

Lemma capitalized_cat_r (r1 r2 : regex) :
  capitalized r2 → capitalized (Cat r1 r2).
Proof.
  intros H w (w1 & w2 & -> & _ & H2). apply Exists_app. right. by apply H.
Qed.

Lemma capitalized_grp (r : regex) : capitalized r → capitalized (Grp r).
Proof. done. Qed.

Lemma capitalized_upper : capitalized upper_az.
Proof. intros w (c & Hc & ->). by constructor. Qed.

Lemma patterns_capitalized :
  capitalized district_pattern ∧ capitalized upazila_pattern
  ∧ capitalized list_pattern ∧ capitalized district_list_pattern.
Proof.
  assert (Hname : capitalized (Grp place_name)).
  { apply capitalized_grp, capitalized_cat_l, capitalized_upper. }
  assert (Htail : ∀ r, capitalized (seq (r :: opt (Chr "s") :: list_tail))).
  { intros r. do 5 apply capitalized_cat_r.
    apply capitalized_cat_l, capitalized_grp, capitalized_cat_l,
      capitalized_upper. }
  split_and!; [by apply capitalized_cat_l..|apply Htail|apply Htail].
Qed.

Lemma findall_needs_capital (r : regex) (article : string) :
  productive r = true → capitalized r →
  Forall (λ c, Str.is_upper_az c = false) (chars article) →
  findall r article = [].
Proof.
  intros Hprod Hcap Hno. apply findall_nil; [done|].
  intros (pre & w & post & Heq & Hw).
  apply Hcap, Exists_exists in Hw as (c & Hin & Hc).
  unfold chars in Hno. rewrite Heq, !Forall_app in Hno.
  destruct Hno as (_ & Hno & _). rewrite Forall_forall in Hno.
  rewrite (Hno c Hin) in Hc. discriminate.
Qed.

(** X7. The regex extractor finds nothing in a text without a capital
    letter [A-Z]: both lists of its result are empty.  Its patterns are
    case-sensitive, unlike those of the numeric fact extractor. *)
Theorem regex_locations_need_capitals (article : string) :
  Forall (λ c, Str.is_upper_az c = false) (chars article) →
  extract_locations_with_regex article
  = {| rx_districts := []; rx_upazilas := [] |}.
Proof.
  intros Hno.
  destruct patterns_capitalized as (H1 & H2 & H3 & H4).
  unfold extract_locations_with_regex, district_names, upazila_names.
  by rewrite !findall_needs_capital.
Qed.

Lemma regex_locations_need_capitals_witness :
  extract_locations_with_regex "dhaka district, upazilas: feni, bogra."
  = {| rx_districts := []; rx_upazilas := [] |}.
Proof.
  apply regex_locations_need_capitals.
  vm_compute. repeat constructor.
Defined.

(** ** Lower-casing *)

Lemma lower_char_not_upper (c : ascii) :
  Str.is_upper_az (Str.lower_char c) = false.
Proof. by destruct c as [[] [] [] [] [] [] [] []]. Qed.

Lemma lower_no_capitals (x : string) :
  Forall (λ c, Str.is_upper_az c = false) (chars (Str.lower x)).
Proof.
  induction x as [|c x IH]; simpl; constructor;
    [apply lower_char_not_upper|done].
Qed.

(** X8. The disaster classifier and the numeric fact extractor do not
    see the case of letters: each gives the same result on a text and on
    its lower-cased form.  The regex location extractor does: on a
    lower-cased text it finds nothing. *)
Theorem case_of_letters (article : string) :
  extract_disaster_type (Str.lower article) = extract_disaster_type article
  ∧ extract_categorized_numbers (Str.lower article)
    = extract_categorized_numbers article
  ∧ extract_locations_with_regex (Str.lower article)
    = {| rx_districts := []; rx_upazilas := [] |}.
Proof.
  split_and!.
  - unfold extract_disaster_type. by rewrite lower_idem.
  - unfold extract_categorized_numbers, death_matches, injured_matches,
      affected_matches. by rewrite lower_idem.
  - apply regex_locations_need_capitals, lower_no_capitals.
Qed.

(** ** The categorizer, name by name *)

Lemma tier_partition (doc : Doc) (locs : list string) :
  filter (λ loc, tier_of doc loc = District) locs
  ++ filter (λ loc, tier_of doc loc = Upazila) locs
  ++ filter (λ loc, tier_of doc loc = Uncertain) locs ≡ₚ locs.
Proof.
  induction locs as [|loc locs IH]; [done|].
  rewrite !filter_cons.
  destruct (tier_of doc loc); repeat case_decide; try done; simpl.
  - by rewrite IH.
  - rewrite <- Permutation_middle. by rewrite IH.
  - rewrite app_assoc, <- Permutation_middle, <- app_assoc. by rewrite IH.
Qed.

(** X9. The categorizer neither drops nor invents a name: its three
    lists together are a rearrangement of the input list, every
    occurrence counted, and each list keeps the input order. *)
Theorem categorizer_conserves_names (doc : Doc) (locs : list string) :
  let c := categorize_locations_by_context doc locs in
  districts c ++ upazilas c ++ uncertain_locations c ≡ₚ locs
  ∧ length (districts c) + length (upazilas c)
    + length (uncertain_locations c) = length locs
  ∧ districts c `sublist_of` locs
  ∧ upazilas c `sublist_of` locs
  ∧ uncertain_locations c `sublist_of` locs.
Proof.
  intros c. destruct (categorize_by_tier doc locs) as (Hd & Hu & Hn).
  subst c. rewrite Hd, Hu, Hn.
  pose proof (tier_partition doc locs) as Hperm.
  split_and!; [done| |apply sublist_filter..].
  apply Permutation_length in Hperm. rewrite !length_app in Hperm. lia.
Qed.

Lemma first_gpe_None (doc : Doc) (loc : string) :
  Forall (λ ent, ¬ (text ent = loc ∧ label_ ent = "GPE")) (ents doc) →
  first_gpe doc loc = None.
Proof.
  unfold first_gpe. induction 1 as [|ent es Hent _ IH]; simpl; [done|].
  unfold is_gpe_named at 1.
  destruct (String.eqb_spec (text ent) loc) as [Ht|]; [|done].
  destruct (String.eqb_spec (label_ ent) "GPE") as [Hl|]; [|done].
  by destruct Hent.
Qed.

(** X10. A name for which the document has no [GPE] entity with that
    text is filed under uncertain, and under nothing else: the inner loop
    finds no span to take a context from. *)
Theorem unrecognized_name_is_uncertain (doc : Doc) (locs : list string)
    (loc : string) :
  loc ∈ locs →
  Forall (λ ent, ¬ (text ent = loc ∧ label_ ent = "GPE")) (ents doc) →
  let c := categorize_locations_by_context doc locs in
  loc ∈ uncertain_locations c ∧ (loc ∉ districts c) ∧ (loc ∉ upazilas c).
Proof.
  intros Hin Hno c.
  assert (Ht : tier_of doc loc = Uncertain).
  { unfold tier_of. by rewrite first_gpe_None. }
  destruct (categorize_by_tier doc locs) as (Hd & Hu & Hn).
  subst c. rewrite Hd, Hu, Hn, !list_elem_of_filter, Ht.
  split; [done|]. split; intros [? _]; discriminate.
Qed.

Lemma unrecognized_name_is_uncertain_witness :
  let c := categorize_locations_by_context bogra_doc ["Bogra"; "Feni"] in
  "Feni" ∈ uncertain_locations c ∧ ("Feni" ∉ districts c)
  ∧ ("Feni" ∉ upazilas c).
Proof.
  apply (unrecognized_name_is_uncertain bogra_doc ["Bogra"; "Feni"] "Feni").
  - right. left.
  - repeat constructor. intros [H _]. discriminate.
Defined.

(** X11. When the window of the first [GPE] span of a name has a district
    keyword and no sub-district keyword, the name is filed under
    districts only; when it has neither, under uncertain only. *)
Theorem first_span_decides (doc : Doc) (locs : list string)
    (loc : string) (ent : Span) :
  loc ∈ locs →
  first_gpe doc loc = Some ent →
  Str.any_in upazila_keywords (context_of doc ent) = false →
  let c := categorize_locations_by_context doc locs in
  if Str.any_in district_keywords (context_of doc ent)
  then loc ∈ districts c ∧ (loc ∉ upazilas c)
       ∧ (loc ∉ uncertain_locations c)
  else loc ∈ uncertain_locations c ∧ (loc ∉ districts c)
       ∧ (loc ∉ upazilas c).
Proof.
  intros Hin Hfirst Hsub c.
  assert (Ht : tier_of doc loc =
               if Str.any_in district_keywords (context_of doc ent)
               then District else Uncertain).
  { unfold tier_of. rewrite Hfirst. unfold tier_of_context.
    by rewrite Hsub. }
  destruct (categorize_by_tier doc locs) as (Hd & Hu & Hn).
  subst c. rewrite Hd, Hu, Hn.
  destruct (Str.any_in district_keywords (context_of doc ent));
    rewrite !list_elem_of_filter, Ht;
    (split; [done|]); split; intros [? _]; discriminate.
Qed.

Lemma first_span_decides_witness :
  let c := categorize_locations_by_context dhaka_doc ["Dhaka"] in
  "Dhaka" ∈ uncertain_locations c ∧ ("Dhaka" ∉ districts c)
  ∧ ("Dhaka" ∉ upazilas c).
Proof.
  apply (first_span_decides dhaka_doc ["Dhaka"] "Dhaka" (gpe "Dhaka" 0)).
  - left.
  - vm_compute. reflexivity.
  - vm_compute. reflexivity.
Defined.

Lemma locations_eq (a b : locations) :
  districts a = districts b → upazilas a = upazilas b →
  uncertain_locations a = uncertain_locations b → a = b.
Proof. destruct a, b; simpl. congruence. Qed.

Lemma filter_tier_ext (doc doc' : Doc) (t : tier) (locs : list string) :
  Forall (λ loc, tier_of doc' loc = tier_of doc loc) locs →
  filter (λ loc, tier_of doc' loc = t) locs
  = filter (λ loc, tier_of doc loc = t) locs.
Proof.
  induction 1 as [|loc locs Hloc _ IH]; [done|].
  rewrite !filter_cons, IH, Hloc. by destruct (decide _).
Qed.

Lemma find_app_Some (f : Span → bool) (es more : list Span) (ent : Span) :
  List.find f es = Some ent → List.find f (es ++ more) = Some ent.
Proof.
  induction es as [|e es IH]; simpl; [done|]. by destruct (f e).
Qed.

(** X12. Only the first [GPE] span of a name counts.  Entities that the
    recognizer reports after those of a document change nothing for the
    names that already have a [GPE] span: the result of the categorizer
    is the same. *)
Theorem later_spans_are_ignored (doc doc' : Doc) (more : list Span)
    (locs : list string) :
  tokens doc' = tokens doc →
  ents doc' = ents doc ++ more →
  Forall (λ loc, is_Some (first_gpe doc loc)) locs →
  categorize_locations_by_context doc' locs
  = categorize_locations_by_context doc locs.
Proof.
  intros Htok Hents Hlocs.
  assert (Htier : Forall (λ loc, tier_of doc' loc = tier_of doc loc) locs).
  { eapply Forall_impl; [exact Hlocs|]. intros loc [ent Hent].
    unfold tier_of, first_gpe in *.
    rewrite Hents, (find_app_Some _ _ more ent Hent), Hent.
    unfold context_of, slice, len. by rewrite Htok. }
  destruct (categorize_by_tier doc locs) as (Hd & Hu & Hn).
  destruct (categorize_by_tier doc' locs) as (Hd' & Hu' & Hn').
  apply locations_eq.
  - rewrite Hd, Hd'. by apply filter_tier_ext.
  - rewrite Hu, Hu'. by apply filter_tier_ext.
  - rewrite Hn, Hn'. by apply filter_tier_ext.
Qed.

Lemma later_spans_are_ignored_witness :
  categorize_locations_by_context
    {| tokens := tokens bogra_doc;
       ents := ents bogra_doc ++ [gpe "Bogra" 0] |} ["Bogra"]
  = categorize_locations_by_context bogra_doc ["Bogra"].
Proof.
  apply (later_spans_are_ignored bogra_doc _ [gpe "Bogra" 0]).
  - reflexivity.
  - reflexivity.
  - repeat constructor. vm_compute. eauto.
Defined.

(** ** The merger as a union *)



(** ** The event date resolver and the text *)

Lemma findall_occurs (r : regex) (article : string) :
  productive r = true → findall r article ≠ [] ↔ occurs r article.
Proof.
  intros Hprod. split.
  - unfold findall. rewrite scan_nil. intros Hs.
    destruct (search r (String.list_ascii_of_string article))
      as [[s' g]|] eqn:Hm; [|done].
    apply search_Some in Hm as (pre & t & Heq & Hm).
    apply match_at_sound in Hm as (w & -> & Hw). by exists pre, w, s'.
  - intros Hocc Hnil. by apply findall_nil in Hnil.
Qed.

(** X14. Whether the recognizer dates count is decided by the text
    alone.  When some part of the text is an instance of the contextual
    pattern, the result is the same for every list of recognizer dates;
    when none is, the result is the fallback. *)
Theorem event_date_source (article : string) :
  (occurs event_date_pattern article →
   ∀ dates dates' : list string,
     extract_event_date dates article = extract_event_date dates' article)
  ∧ (¬ occurs event_date_pattern article →
     ∀ dates : list string,
       extract_event_date dates article =
       match dates with
       | first :: _ => first +:+ " (estimated)"
       | [] => "not clearly mentioned"
       end).
Proof.
  unfold extract_event_date. split.
  - intros Hocc%findall_occurs; [|done]. intros dates dates'.
    by destruct (findall event_date_pattern article).
  - intros Hno%findall_nil; [|done]. intros dates. by rewrite Hno.
Qed.

Lemma event_date_source_witness :
  extract_event_date ["yesterday"] "Rain fell since August 20, 2024"
  = extract_event_date [] "Rain fell since August 20, 2024".
Proof.
  apply (proj1 (event_date_source "Rain fell since August 20, 2024")).
  apply findall_occurs; [done|]. vm_compute. discriminate.
Defined.

Lemma lang_date (w : list ascii) :
  lang (seq [upper_az; plus lower_az; plus space; times 1 2 digit;
             opt (seq [opt (Chr ","); plus space; times 4 4 digit])]) w →
  ∃ c w', w = c :: w' ∧ Str.is_upper_az c = true.
Proof. intros (w1 & w2 & -> & (c & Hc & ->) & _). by exists c, w2. Qed.

Lemma append_nonempty (x y : string) : y ≠ "" → x +:+ y ≠ "".
Proof. destruct x; [done|]. simpl. discriminate. Qed.

(** X15. The resolver never returns the empty string.  A date it takes
    from the text through the contextual pattern is a part of the text
    that begins with a capital letter: the preposition before it is not
    in the result. *)
Theorem event_date_shape (dates : list string) (article : string) :
  extract_event_date dates article ≠ ""
  ∧ (occurs event_date_pattern article →
     part_of (chars (extract_event_date dates article)) (chars article)
     ∧ ∃ c w', chars (extract_event_date dates article) = c :: w'
               ∧ Str.is_upper_az c = true).
Proof.
  assert (Hfound : ∀ x xs,
             findall event_date_pattern article = x :: xs →
             part_of (chars x) (chars article)
             ∧ ∃ c w', chars x = c :: w' ∧ Str.is_upper_az c = true).
  { intros x xs Hf.
    assert (Hx : x ∈ findall event_date_pattern article)
      by (rewrite Hf; left).
    apply findall_captured in Hx as (rg & Hrg & Hw & Hpart); [|done..].
    apply list_elem_of_singleton in Hrg as ->.
    split; [done|]. by apply lang_date. }
  unfold extract_event_date.
  destruct (findall event_date_pattern article) as [|x xs] eqn:Hf.
  - split.
    + destruct dates; [done|]. by apply append_nonempty.
    + intros Hocc%findall_occurs; done.
  - destruct (Hfound x xs eq_refl) as [Hpart (c & w' & Hc & Hup)].
    split; [|by eauto]. intros ->. discriminate.
Qed.

Lemma event_date_shape_witness :
  part_of (chars "August 20, 2024") (chars "Rain fell since August 20, 2024")
  ∧ ∃ c w', chars "August 20, 2024" = c :: w' ∧ Str.is_upper_az c = true.
Proof.
  apply (proj2 (event_date_shape [] "Rain fell since August 20, 2024")).
  apply findall_occurs; [done|]. vm_compute. discriminate.
Defined.

(** ** [process_article] *)

Lemma collect_ents_dates (es : list Span) (locs dates : list string) :
  (collect_ents es locs dates).2
  = dates ++ (text <$> filter (λ ent, label_ ent = "DATE") es).
Proof.
  revert locs dates. induction es as [|ent es IH]; intros locs dates.
  { simpl. by rewrite app_nil_r. }
  cbn [collect_ents]. rewrite filter_cons.
  destruct (String.eqb_spec (label_ ent) "GPE") as [Heq|Hne].
  - rewrite IH, decide_False; [done|]. rewrite Heq. discriminate.
  - destruct (String.eqb_spec (label_ ent) "DATE") as [Heq'|Hne'].
    + rewrite IH, decide_True by done. by rewrite <- app_assoc.
    + rewrite IH, decide_False; done.
Qed.

Lemma final_locations_unfold (doc : Doc) (article : string) :
  final_locations doc article
  = merge_location_results
      (categorize_locations_by_context doc
         (text <$> filter (λ ent, label_ ent = "GPE") (ents doc)))
      (extract_locations_with_regex article).
Proof.
  unfold final_locations.
  pose proof (collect_ents_locs (ents doc) [] []) as Hlocs.
  destruct (collect_ents (ents doc) [] []) as [locs dates].
  simpl in Hlocs. by subst locs.
Qed.

Lemma merge_uncertain (spacy_results : locations)
    (regex_results : regex_locations) :
  uncertain_locations (merge_location_results spacy_results regex_results)
  = uncertain_locations spacy_results.
Proof. done. Qed.

(** X16. No recognized place is lost and none is invented: the text of
    every [GPE] entity of the document is in one of the three lists of
    the final locations, and every name in these lists is the text of a
    [GPE] entity or a name found by the regex extractor. *)
Theorem final_locations_provenance (doc : Doc) (article : string) :
  let final := final_locations doc article in
  let regex_results := extract_locations_with_regex article in
  (∀ ent : Span,
     ent ∈ ents doc → label_ ent = "GPE" →
     text ent ∈ districts final ∨ text ent ∈ upazilas final
     ∨ text ent ∈ uncertain_locations final)
  ∧ (∀ name : string,
       name ∈ districts final ∨ name ∈ upazilas final
       ∨ name ∈ uncertain_locations final →
       (∃ ent : Span, ent ∈ ents doc ∧ label_ ent = "GPE" ∧ text ent = name)
       ∨ name ∈ rx_districts regex_results
       ∨ name ∈ rx_upazilas regex_results).
Proof.
  intros final regex_results. subst final regex_results.
  rewrite final_locations_unfold.
  set (locs := text <$> filter (λ ent, label_ ent = "GPE") (ents doc)).
  assert (Hlocs : ∀ name, name ∈ locs ↔
            ∃ ent, ent ∈ ents doc ∧ label_ ent = "GPE" ∧ text ent = name).
  { intros name. unfold locs. rewrite list_elem_of_fmap. split.
    - intros (ent & -> & [Hl Hin]%list_elem_of_filter). eauto.
    - intros (ent & Hin & Hl & <-). exists ent. split; [done|].
      by apply list_elem_of_filter. }
  destruct (categorize_by_tier doc locs) as (Hd & Hu & Hn).
  split.
  - intros ent Hin Hl.
    assert (Hname : text ent ∈ locs) by (apply Hlocs; eauto).
    rewrite merge_districts, merge_upazilas, merge_uncertain.
    rewrite Hd, Hu, Hn, !list_elem_of_filter.
    destruct (tier_of doc (text ent)); auto.
  - intros name. rewrite merge_districts, merge_upazilas, merge_uncertain.
    rewrite Hd, Hu, Hn, !list_elem_of_filter.
    intros [[[_ H]|H]|[[[_ H]|H]|[_ H]]]; auto; left; by apply Hlocs.
Qed.

(** X17. The recognizer dates that [process_article] hands to the
    resolver are the texts of the [DATE] entities in document order, and
    of no other entity: without a contextual date in the text, the event
    date is the text of the first [DATE] entity followed by
    " (estimated)". *)
Theorem event_date_from_date_entities (doc : Doc) (article : string) :
  event_date doc article
  = extract_event_date
      (text <$> filter (λ ent, label_ ent = "DATE") (ents doc)) article
  ∧ (¬ occurs event_date_pattern article →
     event_date doc article =
     match filter (λ ent, label_ ent = "DATE") (ents doc) with
     | ent :: _ => text ent +:+ " (estimated)"
     | [] => "not clearly mentioned"
     end).
Proof.
  assert (Heq : event_date doc article
                = extract_event_date
                    (text <$> filter (λ ent, label_ ent = "DATE") (ents doc))
                    article).
  { unfold event_date.
    pose proof (collect_ents_dates (ents doc) [] []) as Hdates.
    destruct (collect_ents (ents doc) [] []) as [locs dates].
    simpl in Hdates. by subst dates. }
  split; [done|]. intros Hno. rewrite Heq.
  rewrite (proj2 (event_date_source article) Hno).
  by destruct (filter _ (ents doc)).
Qed.

Lemma event_date_from_date_entities_witness :
  event_date
    {| tokens := [tok "Dhaka"; tok "flooded"; tok_end "Friday"];
       ents := [gpe "Dhaka" 0;
                {| text := "Friday"; label_ := "DATE";
                   start := 2; end_ := 3 |}] |}
    "Dhaka flooded Friday"
  = "Friday (estimated)".
Proof.
  apply (proj2 (event_date_from_date_entities
                  {| tokens := [tok "Dhaka"; tok "flooded"; tok_end "Friday"];
                     ents := [gpe "Dhaka" 0;
                              {| text := "Friday"; label_ := "DATE";
                                 start := 2; end_ := 3 |}] |}
                  "Dhaka flooded Friday")).
  apply findall_nil; [done|]. vm_compute. reflexivity.
Defined.

(** ** [main] *)

Lemma foldl_snoc_map {X Y} (g : X → Y) (acc : list Y) (xs : list X) :
  foldl (λ out x, out ++ [g x]) acc xs = acc ++ (g <$> xs).
Proof.
  revert acc. induction xs as [|x xs IH]; intros acc; simpl.
  - by rewrite app_nil_r.
  - by rewrite IH, <- app_assoc.
Qed.

(** [f.endswith(suffix)] holds exactly of [stem + suffix]. *)
Lemma ends_with_spec (suffix f : string) :
  ends_with suffix f = true ↔ ∃ stem : string, f = stem +:+ suffix.
Proof.
  unfold ends_with. rewrite starts_with_spec. split.
  - intros [b Hb]. exists (String.string_of_list_ascii (rev b)).
    apply chars_inj. rewrite chars_app, chars_of_list.
    apply (f_equal (@rev ascii)) in Hb.
    by rewrite rev_involutive, rev_app_distr, rev_involutive in Hb.
  - intros [stem ->]. exists (rev (chars stem)).
    fold (chars (stem +:+ suffix)). by rewrite chars_app, rev_app_distr.
Qed.

Lemma txt_files_spec (w : world) (filename : string) :
  filename ∈ List.filter (ends_with ".txt") (listdir w articles_dir)
  ↔ filename ∈ listdir w articles_dir
    ∧ ∃ stem : string, filename = stem +:+ ".txt".
Proof.
  rewrite !list_elem_of_In, filter_In, <- list_elem_of_In.
  by rewrite ends_with_spec.
Qed.

(** X18. When the directory exists and lists a name that ends in ".txt",
    the script writes the line that counts the articles and then one
    entry for each listed name that ends in ".txt", in listing order,
    and none for any other name.  The entry of a file is its report, or
    its error line when reading it raised; the entries of the other
    files do not depend on it. *)
Theorem main_one_entry_per_article (w : world) :
  path_exists w articles_dir = true →
  (∃ filename, filename ∈ listdir w articles_dir
               ∧ ends_with ".txt" filename = true) →
  ∃ (header : string) (txt_files : list string),
    main w = Print header :: (process_file w <$> txt_files)
    ∧ txt_files `sublist_of` listdir w articles_dir
    ∧ (∀ filename : string,
         filename ∈ txt_files
         ↔ filename ∈ listdir w articles_dir
           ∧ ∃ stem : string, filename = stem +:+ ".txt")
    ∧ header = "Found " +:+ pretty (length txt_files)
               +:+ " article(s) to process..." +:+ newline.
Proof.
  intros Hdir (filename & Hin & Htxt).
  exists ("Found "
          +:+ pretty (length (List.filter (ends_with ".txt")
                                (listdir w articles_dir)))
          +:+ " article(s) to process..." +:+ newline),
    (List.filter (ends_with ".txt") (listdir w articles_dir)).
  split_and!; [|
    |apply txt_files_spec|done].
  - unfold main. rewrite Hdir. cbn [negb].
    destruct (List.filter (ends_with ".txt") (listdir w articles_dir))
      as [|f fs] eqn:Hf.
    + assert (Hmem : filename ∈ List.filter (ends_with ".txt")
                                  (listdir w articles_dir)).
      { apply list_elem_of_In, filter_In.
        split; [by apply list_elem_of_In|done]. }
      rewrite Hf in Hmem. by apply elem_of_nil in Hmem.
    + cbn [Str.truthy negb]. by rewrite foldl_snoc_map.
  - clear. induction (listdir w articles_dir) as [|f fs IH]; simpl; [done|].
    destruct (ends_with ".txt" f);
      [by apply sublist_skip|by apply sublist_cons].
Qed.

Lemma main_one_entry_per_article_witness :
  ∃ (header : string) (txt_files : list string),
    main example_world
    = Print header :: (process_file example_world <$> txt_files)
    ∧ txt_files `sublist_of` listdir example_world articles_dir
    ∧ (∀ filename : string,
         filename ∈ txt_files
         ↔ filename ∈ listdir example_world articles_dir
           ∧ ∃ stem : string, filename = stem +:+ ".txt")
    ∧ header = "Found " +:+ pretty (length txt_files)
               +:+ " article(s) to process..." +:+ newline.
Proof.
  apply (main_one_entry_per_article example_world).
  - reflexivity.
  - exists "a.txt". split; [left|reflexivity].
Defined.

Example main_example :
  main example_world
  = [Print ("Found 2 article(s) to process..." +:+ newline);
     Print ("Error processing a.txt: invalid start byte" +:+ newline);
     Report "b.txt"
       {| res_disaster_type := "flood";
          res_event_date := "not clearly mentioned";
          res_locations := {| districts := ["Feni"]; upazilas := [];
                              uncertain_locations := [] |};
          res_numbers := {| deaths := ["0 or not mentioned"];
                            injured := ["not mentioned"];
                            affected := ["not mentioned"] |} |}].
Proof. vm_compute. reflexivity. Qed.

(** X19. When the directory is missing, or lists no name that ends in
    ".txt", the script writes one line and stops: what the files hold
    and what the recognizer would say play no part. *)
Theorem main_without_articles (w w' : world) :
  path_exists w articles_dir = false
  ∨ Forall (λ f, ends_with ".txt" f = false) (listdir w articles_dir) →
  path_exists w' = path_exists w →
  listdir w' = listdir w →
  main w' = main w
  ∧ main w =
    [Print (if path_exists w articles_dir
            then "No .txt files found in 'data/raw_articles'"
            else "Error: Directory 'data/raw_articles' not found!")].
Proof.
  intros Hcase Hp Hl.
  assert (Hmain : ∀ v : world,
            path_exists v = path_exists w → listdir v = listdir w →
            main v =
            [Print (if path_exists w articles_dir
                    then "No .txt files found in 'data/raw_articles'"
                    else "Error: Directory 'data/raw_articles' not found!")]).
  { intros v Hvp Hvl. unfold main. rewrite Hvp, Hvl.
    destruct Hcase as [Hno|Hnone].
    - by rewrite Hno.
    - destruct (path_exists w articles_dir); [|done]. cbn [negb].
      replace (List.filter (ends_with ".txt") (listdir w articles_dir))
        with (@nil string); [done|].
      induction Hnone as [|f fs Hf _ IH]; simpl; [done|]. by rewrite Hf. }
  split; [|by apply Hmain]. by rewrite (Hmain w'), (Hmain w).
Qed.

Lemma main_without_articles_witness :
  main {| path_exists := λ _, false; listdir := listdir example_world;
          read := λ _, inl "x"; nlp := nlp example_world |}
  = main {| path_exists := λ _, false; listdir := listdir example_world;
            read := read example_world; nlp := nlp example_world |}
  ∧ main {| path_exists := λ _, false; listdir := listdir example_world;
            read := read example_world; nlp := nlp example_world |}
    = [Print "Error: Directory 'data/raw_articles' not found!"].
Proof.
  apply (main_without_articles
           {| path_exists := λ _, false; listdir := listdir example_world;
              read := read example_world; nlp := nlp example_world |}
           {| path_exists := λ _, false; listdir := listdir example_world;
              read := λ _, inl "x"; nlp := nlp example_world |}).
  - left. reflexivity.
  - reflexivity.
  - reflexivity.
Defined.

(** ** The context window *)

Lemma slice_segment (doc : Doc) (x y : Z) :
  (0 ≤ x ≤ y)%Z → (y ≤ len doc)%Z →
  slice doc x y
  = take (Z.to_nat y - Z.to_nat x) (drop (Z.to_nat x) (tokens doc)).
Proof.
  intros Hxy Hy. unfold slice, normalize_slice.
  destruct (Z.ltb_spec x 0) as [|_]; [lia|].
  destruct (Z.ltb_spec y 0) as [|_]; [lia|].
  rewrite (Z.max_r 0 x), (Z.min_r (len doc) x) by lia.
  rewrite (Z.max_r x y), (Z.min_r (len doc) y) by lia.
  by rewrite Z2Nat.inj_sub by lia.
Qed.

Lemma segment_split {X} (l : list X) (a m b : nat) :
  a ≤ m ≤ b →
  take (b - a) (drop a l)
  = take (m - a) (drop a l) ++ take (b - m) (drop m l).
Proof.
  intros Hamb. replace (b - a) with ((m - a) + (b - m)) by lia.
  rewrite <- take_take_drop, drop_drop. do 3 f_equal. lia.
Qed.

(** X20. For an entity whose offsets lie in the document, the context
    window is made of the tokens of the entity with the tokens before and
    after them, five on each side or as many as the document has there:
    the window is cut at the ends of the document, and the text of the
    entity is in its own context. *)
Theorem context_window_extent (doc : Doc) (ent : Span) :
  (0 ≤ start ent ≤ end_ ent)%Z → (end_ ent ≤ len doc)%Z →
  let window :=
    slice doc (Z.max 0 (start ent - 5)) (Z.min (len doc) (end_ ent + 5)) in
  ∃ before after : list Token,
    window = before ++ slice doc (start ent) (end_ ent) ++ after
    ∧ before = slice doc (Z.max 0 (start ent - 5)) (start ent)
    ∧ after = slice doc (end_ ent) (Z.min (len doc) (end_ ent + 5))
    ∧ Z.of_nat (length before) = Z.min 5 (start ent)
    ∧ Z.of_nat (length after) = Z.min 5 (len doc - end_ ent).
Proof.
  intros Hse He window. subst window.
  exists (slice doc (Z.max 0 (start ent - 5)) (start ent)),
    (slice doc (end_ ent) (Z.min (len doc) (end_ ent + 5))).
  rewrite !slice_segment by lia.
  split_and!; [|done|done|..].
  - rewrite (segment_split _ _ (Z.to_nat (start ent))) by lia.
    f_equal. apply segment_split. lia.
  - rewrite length_take, length_drop. unfold len in *. lia.
  - rewrite length_take, length_drop. unfold len in *. lia.
Qed.

Lemma context_window_extent_witness :
  ∃ before after : list Token,
    slice bogra_doc (Z.max 0 (3 - 5)) (Z.min (len bogra_doc) (4 + 5))
    = before ++ slice bogra_doc 3 4 ++ after
    ∧ before = slice bogra_doc (Z.max 0 (3 - 5)) 3
    ∧ after = slice bogra_doc 4 (Z.min (len bogra_doc) (4 + 5))
    ∧ Z.of_nat (length before) = Z.min 5 3
    ∧ Z.of_nat (length after) = Z.min 5 (len bogra_doc - 4).
Proof.
  apply (context_window_extent bogra_doc (gpe "Bogra" 3)).
  - simpl. lia.
  - vm_compute. discriminate.
Defined.

(** ** An entity in its own context *)

Lemma chars_lower (x : string) :
  chars (Str.lower x) = Str.lower_char <$> chars x.
Proof. induction x as [|c x IH]; simpl; [done|]. by rewrite IH. Qed.

Lemma part_of_fmap (f : ascii → ascii) (w s : list ascii) :
  part_of w s → part_of (f <$> w) (f <$> s).
Proof.
  intros (a & b & ->). exists (f <$> a), (f <$> b). by rewrite !fmap_app.
Qed.

Lemma part_of_trans (u w s : list ascii) :
  part_of u w → part_of w s → part_of u s.
Proof. intros Hu (a & b & ->). by apply part_of_app. Qed.

Lemma any_in_mono (keywords : list string) (x y : string) :
  part_of (chars x) (chars y) →
  Str.any_in keywords x = true → Str.any_in keywords y = true.
Proof.
  intros Hxy. unfold Str.any_in. rewrite !existsb_exists.
  intros (kw & Hin & Hkw). exists kw. split; [done|].
  apply contains_spec. apply contains_spec in Hkw.
  by apply part_of_trans with (chars x).
Qed.

Lemma text_with_ws_app (a b : list Token) :
  text_with_ws (a ++ b) = text_with_ws a +:+ text_with_ws b.
Proof.
  induction a as [|t a IH]; simpl; [done|].
  rewrite IH. apply chars_inj. rewrite !chars_app. by rewrite <- !app_assoc.
Qed.

Lemma chars_eq_nil (x : string) : chars x = [] → x = "".
Proof. intros H. by apply chars_inj. Qed.

Lemma span_text_ws (ts : list Token) (t : Token) :
  last ts = Some t → whitespace_ t ≠ "" →
  chars (span_text ts) = removelast (chars (text_with_ws ts))
  ∧ chars (text_with_ws ts) ≠ [].
Proof.
  intros Hlast Hws. split.
  - unfold span_text. rewrite Hlast.
    destruct (String.eqb_spec (whitespace_ t) ""); [done|].
    apply chars_of_list.
  - apply last_Some in Hlast as [ts' ->].
    rewrite text_with_ws_app, chars_app. simpl. rewrite !chars_app.
    intros [_ [_ [H _]%app_eq_nil]%app_eq_nil]%app_eq_nil.
    by apply chars_eq_nil in H.
Qed.

Lemma span_text_no_ws (ts : list Token) :
  (∀ t, last ts = Some t → whitespace_ t = "") →
  span_text ts = text_with_ws ts.
Proof.
  intros H. unfold span_text. destruct (last ts) as [t|]; [|done].
  by rewrite (H t eq_refl).
Qed.

Lemma removelast_prefix (w : list ascii) : ∃ tail, w = removelast w ++ tail.
Proof.
  destruct w as [|c w _] using rev_ind; [by exists []|].
  exists [c]. by rewrite removelast_last.
Qed.

Lemma span_text_cases (ts : list Token) :
  (∃ t, last ts = Some t ∧ whitespace_ t ≠ "")
  ∨ (∀ t, last ts = Some t → whitespace_ t = "").
Proof.
  destruct (last ts) as [t|]; [|by right].
  destruct (decide (whitespace_ t = "")) as [Heq|Hne].
  - right. by intros ? [= <-].
  - left. eauto.
Qed.

(** The text of a run of tokens is a part of the text of any run of
    tokens around it. *)
Lemma span_text_part (before own after : list Token) :
  part_of (chars (span_text own))
          (chars (span_text (before ++ own ++ after))).
Proof.
  assert (Hown : ∃ tail, chars (text_with_ws own)
                         = chars (span_text own) ++ tail).
  { destruct (span_text_cases own) as [(t & Hl & Hws)|Hno].
    - destruct (span_text_ws own t Hl Hws) as [-> _].
      apply removelast_prefix.
    - rewrite span_text_no_ws by done. exists []. by rewrite app_nil_r. }
  destruct Hown as [tail Htail].
  assert (Hall : chars (text_with_ws (before ++ own ++ after))
                 = chars (text_with_ws before) ++ chars (text_with_ws own)
                   ++ chars (text_with_ws after)).
  { by rewrite !text_with_ws_app, !chars_app. }
  destruct (span_text_cases (before ++ own ++ after))
    as [(t & Hl & Hws)|Hno].
  - destruct (span_text_ws _ t Hl Hws) as [-> _]. rewrite Hall.
    rewrite app_assoc, last_app in Hl.
    destruct (last after) as [ta|] eqn:Hla.
    + injection Hl as ->.
      destruct (span_text_ws after t Hla Hws) as [_ Hne].
      rewrite app_assoc, removelast_app by done. rewrite <- app_assoc.
      rewrite Htail, <- app_assoc. eexists _, _. reflexivity.
    + apply last_None in Hla as ->. rewrite app_nil_r in *.
      rewrite last_app in Hl. destruct (last own) as [to|] eqn:Hlo.
      * injection Hl as ->.
        destruct (span_text_ws own t Hlo Hws) as [Heq Hne].
        rewrite removelast_app by done.
        rewrite Heq. eexists _, []. by rewrite app_nil_r.
      * apply last_None in Hlo as ->. eexists [], _. reflexivity.
  - rewrite (span_text_no_ws (before ++ own ++ after)) by done.
    rewrite Hall, Htail, <- app_assoc. eexists _, _. reflexivity.
Qed.

(** X21. An entity whose own text, lower-cased, has a sub-district
    keyword is filed under upazilas whatever stands around it, because
    the context window holds the entity itself; so is every name whose
    first [GPE] span is such an entity. *)
Theorem keyword_in_own_text (doc : Doc) (locs : list string)
    (loc : string) (ent : Span) :
  loc ∈ locs →
  first_gpe doc loc = Some ent →
  (0 ≤ start ent ≤ end_ ent)%Z → (end_ ent ≤ len doc)%Z →
  Str.any_in upazila_keywords
    (Str.lower (span_text (slice doc (start ent) (end_ ent)))) = true →
  let c := categorize_locations_by_context doc locs in
  loc ∈ upazilas c ∧ (loc ∉ districts c) ∧ (loc ∉ uncertain_locations c).
Proof.
  intros Hin Hfirst Hse He Hown c.
  assert (Hctx : Str.any_in upazila_keywords (context_of doc ent) = true).
  { eapply any_in_mono; [|exact Hown]. unfold context_of.
    destruct (context_window_extent doc ent Hse He)
      as (before & after & -> & _).
    rewrite !chars_lower. apply part_of_fmap, span_text_part. }
  assert (Ht : tier_of doc loc = Upazila).
  { unfold tier_of. rewrite Hfirst. unfold tier_of_context. by rewrite Hctx. }
  destruct (categorize_by_tier doc locs) as (Hd & Hu & Hn).
  subst c. rewrite Hd, Hu, Hn, !list_elem_of_filter, Ht.
  split; [done|]. split; intros [? _]; discriminate.
Qed.

Lemma keyword_in_own_text_witness :
  let doc := {| tokens := [tok "Floods"; tok "hit"; tok "Kotwali";
                           tok_end "Thana"];
                ents := [{| text := "Kotwali Thana"; label_ := "GPE";
                            start := 2; end_ := 4 |}] |} in
  let c := categorize_locations_by_context doc ["Kotwali Thana"] in
  "Kotwali Thana" ∈ upazilas c ∧ ("Kotwali Thana" ∉ districts c)
  ∧ ("Kotwali Thana" ∉ uncertain_locations c).
Proof.
  apply (keyword_in_own_text
           {| tokens := [tok "Floods"; tok "hit"; tok "Kotwali";
                         tok_end "Thana"];
              ents := [{| text := "Kotwali Thana"; label_ := "GPE";
                          start := 2; end_ := 4 |}] |}
           ["Kotwali Thana"] "Kotwali Thana"
           {| text := "Kotwali Thana"; label_ := "GPE";
              start := 2; end_ := 4 |}).
  - left.
  - vm_compute. reflexivity.
  - simpl. lia.
  - vm_compute. discriminate.
  - vm_compute. reflexivity.
Defined.
